(** * Linear Diophantine equations: [diophantine.py]

    A shallow embedding of [diophantine.py]: the three functions [gcd],
    [lincomb] and [diophantine], the printing helpers [print_gcd] and
    [print_sol] and the self-test under [__main__], together with the
    properties the specification states about them and further
    properties read off the code.

    Python integers are unbounded, so they are [Z].  [divmod] is floor
    division: quotient [Z.div], remainder [Z.modulo] (sign of the divisor).
    The list [qs] that [gcd] receives is a Python list object which the
    function extends in place; list objects therefore live in a heap and
    are passed by location.  Exceptions and the heap are threaded through a
    small state-and-error monad.  The recursion of [gcd] is not structural,
    so it is driven by a fuel counter which bounds the depth of the
    recursion. *)

From Stdlib Require Import ZArith Lia String Ascii.
From stdpp Require Import base list list_numbers pretty.

Local Open Scope Z_scope.

(** ** Exceptions, outcomes and the heap of list objects *)

Inductive exn : Type :=
  | ValueError (msg : string)
  | ZeroDivisionError
  | OverflowError
  | IndexError.

(** The two errors the module raises itself; the specification calls them
    InvalidDivisor and InvalidRange. *)
Definition InvalidDivisor : exn := ValueError "v must be strictly positive".
Definition InvalidRange : exn := ValueError "p must be less than q".

Inductive outcome (A : Type) : Type :=
  | Ret (a : A)
  | Raise (e : exn)
  | OutOfFuel.
Arguments Ret {A} a.
Arguments Raise {A} e.
Arguments OutOfFuel {A}.

(** A location is the position of a list object in the heap. *)
Abbreviation loc := nat (only parsing).
Abbreviation heap := (list (list Z)) (only parsing).

Definition M (A : Type) : Type := heap -> outcome A * heap.

Definition ret {A} (a : A) : M A := fun h => (Ret a, h).
Definition raise {A} (e : exn) : M A := fun h => (Raise e, h).
Definition out_of_fuel {A} : M A := fun h => (OutOfFuel, h).
Definition bind {A B} (m : M A) (k : A -> M B) : M B :=
  fun h =>
    match m h with
    | (Ret a, h') => k a h'
    | (Raise e, h') => (Raise e, h')
    | (OutOfFuel, h') => (OutOfFuel, h')
    end.

Notation "'let*' p ':=' m 'in' k" := (bind m (fun p => k))
  (at level 10, p pattern, m at level 100, k at level 200).

(** [[]] and list literals allocate a new list object. *)
Definition new_list (xs : list Z) : M loc :=
  fun h => (Ret (length h), h ++ [xs]).

(** The current content of a list object. *)
Definition read (l : loc) : M (list Z) :=
  fun h => (Ret (default [] (h !! l)), h).

(** [qs.append(x)]: the object at [l] is extended in place. *)
Definition append (l : loc) (x : Z) : M unit :=
  fun h => (Ret tt, alter (fun xs => xs ++ [x]) l h).

(** ** Python primitives *)

(** [divmod(a, b)] on integers. *)
Definition divmod (a b : Z) : M (Z * Z) :=
  if b =? 0 then raise ZeroDivisionError else ret (a / b, a mod b).

(** [xs[i]] for an integer index: negative indices count from the end, an
    index out of range raises IndexError. *)
Definition getitem (xs : list Z) (i : Z) : M Z :=
  let j := if i <? 0 then i + Z.of_nat (length xs) else i in
  if j <? 0 then raise IndexError
  else match xs !! Z.to_nat j with
       | Some x => ret x
       | None => raise IndexError
       end.

(** [range(lo, hi)]. *)
Definition range (lo hi : Z) : list Z := seqZ lo (hi - lo).

(** *** Floating point

    [a / b] on two integers is Python's true division.  Its result is a
    float (IEEE 754 binary64): the exact quotient rounded to the nearest
    representable number, ties to the even mantissa.  It raises
    ZeroDivisionError when [b = 0] and OverflowError when the rounded
    quotient reaches [2^1024].  A finite binary64 is kept as the dyadic
    number [mantissa * 2 ^ exponent] with [|mantissa| <= 2^53] and
    [-1074 <= exponent]; quotients below [2^-1022] are rounded on the
    subnormal grid [2^-1074].  [math.floor] and [math.ceil] turn a float
    back into an integer without rounding. *)

Record float : Type := Float { mantissa : Z; exponent : Z }.

Definition float_prec : Z := 53.
Definition float_emin : Z := -1074.
Definition float_emax : Z := 1024.

(** [floor (log2 (n / d))] for [0 < n] and [0 < d]. *)
Definition log2_quot (n d : Z) : Z :=
  let k := Z.log2 n - Z.log2 d in
  if 0 <=? k
  then (if n <? d * 2 ^ k then k - 1 else k)
  else (if n * 2 ^ (- k) <? d then k - 1 else k).

(** [num / den] rounded to the nearest integer, ties to even
    ([0 <= num], [0 < den]). *)
Definition round_half_even (num den : Z) : Z :=
  let q := num / den in
  let r := num mod den in
  if 2 * r <? den then q
  else if den <? 2 * r then q + 1
  else if Z.even q then q else q + 1.

Definition truediv (a b : Z) : M float :=
  if b =? 0 then raise ZeroDivisionError
  else if a =? 0 then ret (Float 0 0)
  else
    let n := Z.abs a in
    let d := Z.abs b in
    let e := Z.max (log2_quot n d - (float_prec - 1)) float_emin in
    let m := if 0 <=? e then round_half_even n (d * 2 ^ e)
             else round_half_even (n * 2 ^ (- e)) d in
    if (0 <=? e) && (2 ^ float_emax <=? m * 2 ^ e)
    then raise OverflowError
    else ret (Float (Z.sgn a * Z.sgn b * m) e).

(** [math.floor] and [math.ceil] of a finite float are exact integers. *)
Definition floor (x : float) : Z :=
  if 0 <=? exponent x then mantissa x * 2 ^ exponent x
  else mantissa x / 2 ^ (- exponent x).

Definition ceil (x : float) : Z :=
  if 0 <=? exponent x then mantissa x * 2 ^ exponent x
  else - ((- mantissa x) / 2 ^ (- exponent x)).

(** ** The module's functions *)

(** [gcd(d, v, qs)], lines 18-29.  [fuel] bounds the depth of the
    recursion; the result carries the location it was given. *)
Fixpoint gcd (fuel : nat) (d v : Z) (qs : loc) : M (Z * loc) :=
  match fuel with
  | O => out_of_fuel
  | S fuel' =>
      if v <=? 0 then raise InvalidDivisor
      else
        let* (q, r) := divmod d v in
        if r =? 0 then ret (v, qs)
        else
          let* _ := append qs q in
          gcd fuel' v r qs
  end.

(** The body of the [for] loop of [lincomb], lines 43-45, over the
    remaining items of [enumerate(qs[1:])]; [i] is the index of the next
    item.  [aa] and [bb] are local to [lincomb] and never aliased. *)
Fixpoint lincomb_loop (i : Z) (qs : list Z) (aa bb : list Z)
  : M (list Z * list Z) :=
  match qs with
  | [] => ret (aa, bb)
  | q :: qs' =>
      let* a0 := getitem aa i in
      let* a1 := getitem aa (i + 1) in
      let aa' := aa ++ [a0 - q * a1] in
      let* b0 := getitem bb i in
      let* b1 := getitem bb (i + 1) in
      let bb' := bb ++ [b0 - q * b1] in
      lincomb_loop (i + 1) qs' aa' bb'
  end.

(** [lincomb(d, v)], lines 32-46. *)
Definition lincomb (fuel : nat) (d v : Z) : M (Z * Z * Z) :=
  let* l := new_list [] in
  let* (gd, qs) := gcd fuel d v l in
  let* qv := read qs in
  if (length qv =? 0)%nat then ret (gd, 0, 1)
  else
    let* q0 := getitem qv 0 in
    let* (aa, bb) := lincomb_loop 0 (drop 1 qv) [0; 1] [1; - q0] in
    let* a := getitem aa (-1) in
    let* b := getitem bb (-1) in
    ret (gd, a, b).

(** The bounds of the parameter [n], lines 68-76. *)
Definition bounds (d v p q m a b : Z) (v_constraint : bool) : M (Z * Z) :=
  if negb v_constraint then
    let* x := truediv (p - m * a) v in
    let* y := truediv (q - m * a) v in
    ret (ceil x, floor y)
  else if 0 <? d then
    let* x := truediv (m * b - q) d in
    let* y := truediv (m * b - p) d in
    ret (ceil x, floor y)
  else
    let* x := truediv (m * b - p) d in
    let* y := truediv (m * b - q) d in
    ret (ceil x, floor y).

(** [diophantine(d, v, w, p, q, v_constraint)], lines 49-80. *)
Definition diophantine (fuel : nat) (d v w p q : Z) (v_constraint : bool)
  : M (list (Z * Z)) :=
  if q <=? p then raise InvalidRange
  else
    let* l := new_list [] in
    let* (gd, _) := gcd fuel d v l in
    let* (m, r) := divmod w gd in
    if negb (r =? 0) then ret []
    else
      let* (_, a, b) := lincomb fuel d v in
      let* (lower, upper) := bounds d v p q m a b v_constraint in
      ret (fold_left (fun sols n => sols ++ [(m * a + n * v, m * b - n * d)])
             (range lower (upper + 1)) []).

(** ** The self-test of the module

    The script under [__main__] prints lines and checks assertions.  It
    threads the lines printed so far next to the heap; an assertion that
    fails ends the run with AssertionError, an exception of a called
    function ends it uncaught. *)

Inductive failure : Type :=
  | Uncaught (e : exn)
  | AssertionError (msg : string).

Inductive run (A : Type) : Type :=
  | Done (a : A)
  | Failed (f : failure)
  | Diverged.
Arguments Done {A} a.
Arguments Failed {A} f.
Arguments Diverged {A}.

Definition IO (A : Type) : Type :=
  list string -> heap -> run A * list string * heap.

Definition io_ret {A} (a : A) : IO A := fun out h => (Done a, out, h).
Definition io_bind {A B} (m : IO A) (k : A -> IO B) : IO B :=
  fun out h =>
    match m out h with
    | (Done a, out', h') => k a out' h'
    | (Failed f, out', h') => (Failed f, out', h')
    | (Diverged, out', h') => (Diverged, out', h')
    end.

Notation "'let!' p ':=' m 'in' k" := (io_bind m (fun p => k))
  (at level 10, p pattern, m at level 100, k at level 200).

(** A call of one of the module's functions. *)
Definition call {A} (m : M A) : IO A :=
  fun out h =>
    match m h with
    | (Ret a, h') => (Done a, out, h')
    | (Raise e, h') => (Failed (Uncaught e), out, h')
    | (OutOfFuel, h') => (Diverged, out, h')
    end.

(** [print(line)]. *)
Definition print (line : string) : IO unit :=
  fun out h => (Done tt, out ++ [line], h).

(** [assert cond, msg]; the message is empty where the source gives
    none. *)
Definition assert (cond : bool) (msg : string) : IO unit :=
  fun out h =>
    if cond then (Done tt, out, h) else (Failed (AssertionError msg), out, h).

(** [str(n)] for an integer. *)
Definition str (n : Z) : string := pretty n.

(** [template.format(args)] for the templates of this module: a field is
    [{}] (the next argument) or [{i}] with one digit [i], and every field
    has its argument.  The arguments are strings already. *)
Fixpoint format_from (next : nat) (template : string) (args : list string)
  : string :=
  match template with
  | EmptyString => EmptyString
  | String "{" (String "}" rest) =>
      (default EmptyString (args !! next)
       ++ format_from (S next) rest args)%string
  | String "{" (String i (String "}" rest)) =>
      (default EmptyString (args !! (nat_of_ascii i - 48)%nat)
       ++ format_from next rest args)%string
  | String c rest => String c (format_from next rest args)
  end.

Definition format (template : string) (args : list string) : string :=
  format_from 0 template args.

(** [print_gcd(d, v, gd, a, b)], lines 83-85. *)
Definition print_gcd (d v gd a b : Z) : IO unit :=
  print (format "gcd({0},{1}) = {2} = {3}*{0} + {4}*{1}"
           [str d; str v; str gd; str a; str b]).

(** [print_sol(sol, d, v, w, p, q, v_constraint)], lines 88-92. *)
Definition print_sol (sol : Z * Z) (d v w p q : Z) (v_constraint : bool)
  : IO unit :=
  let '(s, t) := sol in
  let fmt := ("(s,t)=({0},{1}) solves {0}*{2} + {1}*{3} = {4}"
              ++ " with {5} <= {6} <= {7}")%string in
  print (format fmt [str s; str t; str d; str v; str w; str p;
                     str (if v_constraint then t else s); str q]).

(** The first loop of the self-test, lines 99-102. *)
Fixpoint gcd_tests (fuel : nat) (dvs : list (Z * Z)) : IO unit :=
  match dvs with
  | [] => io_ret tt
  | (d, v) :: dvs' =>
      let! (gd, a, b) := call (lincomb fuel d v) in
      let! _ := print_gcd d v gd a b in
      let! _ := assert (gd =? a * d + b * v) EmptyString in
      gcd_tests fuel dvs'
  end.

(** The loop over the solutions of one problem, lines 115-124. *)
Fixpoint check_sols (sols : list (Z * Z)) (d v w p q : Z)
    (v_constraint : bool) : IO unit :=
  match sols with
  | [] => io_ret tt
  | (s, t) :: sols' =>
      let! _ := assert (s * d + t * v =? w) "invalid solution" in
      let! _ := assert ((p <=? s) && (s <=? q) || v_constraint)
                  "d coefficient s out of bounds" in
      let! _ := assert ((p <=? t) && (t <=? q) || negb v_constraint)
                  "v coefficient t out of bounds" in
      let! _ := print_sol (s, t) d v w p q v_constraint in
      check_sols sols' d v w p q v_constraint
  end.

(** An item of [probs]: [(d, v, w, p, q, v_constraint)]. *)
Abbreviation problem := (Z * Z * Z * Z * Z * bool)%type (only parsing).

(** The second loop of the self-test, lines 110-125. *)
Fixpoint solution_tests (fuel : nat) (probs : list problem) : IO unit :=
  match probs with
  | [] => io_ret tt
  | (d, v, w, p, q, v_constraint) :: probs' =>
      let! sols := call (diophantine fuel d v w p q v_constraint) in
      let! _ :=
        (if (length sols =? 0)%nat
         then print (format
                       "No solution for s*{} + t*{} = {} with {} <= {} <= {}"
                       [str d; str v; str w; str p;
                        if v_constraint then "t" else "s"; str q])
         else io_ret tt) in
      let! _ := check_sols sols d v w p q v_constraint in
      let! _ := print EmptyString in
      solution_tests fuel probs'
  end.

Definition dvs : list (Z * Z) :=
  [(237, 141); (6, 3); (5, 2); (3, 7); (199, 98); (98, 199);
   (-129, 273); (-273, 129); (0, 21)].

Definition probs : list problem :=
  [(-199, 98, 5, 0, 99, true); (-199, 98, 5, 0, 99, false);
   (23, 31, 4, 0, 99, true); (23, 31, 4, 0, 99, false);
   (23, 31, 4, 0, 3, true); (24, 18, 3, 0, 99, true)].

(** The script, lines 95-125. *)
Definition main (fuel : nat) : IO unit :=
  let! _ := print "GCD Tests" in
  let! _ := gcd_tests fuel dvs in
  let! _ := print EmptyString in
  let! _ := print "Solution Tests" in
  solution_tests fuel probs.

(** ** Vocabulary of the properties *)

(** The Euclidean reduction.  [euclid d v qs g]: reducing [(d, v)] takes
    the quotients [qs] through the steps whose remainder is not zero and
    stops at the divisor [g]. *)
Inductive euclid : Z -> Z -> list Z -> Z -> Prop :=
  | euclid_stop d v :
      0 < v -> d mod v = 0 -> euclid d v [] v
  | euclid_step d v qs g :
      0 < v -> d mod v <> 0 -> euclid v (d mod v) qs g ->
      euclid d v (d / v :: qs) g.

(** The heap after [gcd] has appended [qs] to the list at [l]. *)
Definition extended (l : loc) (qs : list Z) (h : heap) : heap :=
  alter (fun xs => xs ++ qs) l h.

(** Fuel that is always enough for divisor [v]: the recursion is at most
    [2 * log2 v + 1] calls deep. *)
Definition enough_fuel (v : Z) (fuel : nat) : Prop :=
  2 * Z.log2 v < Z.of_nat fuel.

(** The solutions for the parameters [lower], ..., [upper]. *)
Definition solutions (d v m a b lower upper : Z) : list (Z * Z) :=
  map (fun n => (m * a + n * v, m * b - n * d)) (range lower (upper + 1)).

(** The bound on the selected unknown. *)
Definition bounded (c : bool) (p q s t : Z) : Prop :=
  if c then p <= t <= q else p <= s <= q.

(** The numerators of the two divisions of [bounds] fit the 53 bits of a
    float's mantissa and the divisor is far from the subnormal range (and
    is not zero). *)
Definition small_quotients (d v p q m a b : Z) (c : bool) : Prop :=
  if c
  then d <> 0 /\ Z.abs (m * b - p) < 2 ^ 53 /\ Z.abs (m * b - q) < 2 ^ 53 /\
       Z.abs d < 2 ^ 1022
  else Z.abs (p - m * a) < 2 ^ 53 /\ Z.abs (q - m * a) < 2 ^ 53 /\
       v < 2 ^ 1022.

(** The back-substitution of [lincomb] keeps [|c1| * x + |c0| * y]
    constant, for the last two coefficients [c0], [c1] of either sequence,
    which have opposite signs. *)
Definition alternating (c0 c1 x y total : Z) : Prop :=
  c0 * c1 <= 0 /\ Z.abs c1 * x + Z.abs c0 * y = total.

(** Inputs below [2^26] in magnitude; [d] is not zero where the bound is
    on [t]. *)
Definition small_inputs (d v w p q : Z) (c : bool) : Prop :=
  Z.abs d < 2 ^ 26 /\ v < 2 ^ 26 /\ Z.abs w < 2 ^ 26 /\
  Z.abs p < 2 ^ 26 /\ Z.abs q < 2 ^ 26 /\ (c = true -> d <> 0).

(** How a run of the script ended. *)
Definition status {A} (r : run A * list string * heap) : run A :=
  fst (fst r).


(** A problem of the second test loop with valid, small arguments. *)
Definition small_problem (fuel : nat) (pr : problem) : Prop :=
  let '(d, v, w, p, q, c) := pr in
  0 < v /\ p < q /\ enough_fuel v fuel /\ small_inputs d v w p q c.

(** ** Examples from the self-test of the module *)

Example lincomb_237_141 :
  fst (lincomb 10 237 141 []) = Ret (3, -22, 37).
Proof. reflexivity. Qed.

Example lincomb_6_3 : fst (lincomb 10 6 3 []) = Ret (3, 0, 1).
Proof. reflexivity. Qed.

Example diophantine_23_31_s :
  fst (diophantine 10 23 31 4 0 99 false [])
  = Ret [(15, -11); (46, -34); (77, -57)].
Proof. reflexivity. Qed.

Example diophantine_199_98_t :
  fst (diophantine 10 (-199) 98 5 0 99 true []) = Ret [(31, 63)].
Proof. reflexivity. Qed.

(** Known values of true division: [1 / 3], [1 / 10], the ties at
    [2^53 + 1] and [2^53 + 3], and the smallest subnormal. *)
Example truediv_1_3 :
  fst (truediv 1 3 []) = Ret (Float 6004799503160661 (-54)).
Proof. vm_compute. reflexivity. Qed.

Example truediv_1_10 :
  fst (truediv 1 10 []) = Ret (Float 7205759403792794 (-56)).
Proof. vm_compute. reflexivity. Qed.

Example truediv_tie_down :
  fst (truediv (2 ^ 53 + 1) 1 []) = Ret (Float (2 ^ 52) 1).
Proof. vm_compute. reflexivity. Qed.

Example truediv_tie_up :
  fst (truediv (2 ^ 53 + 3) 1 []) = Ret (Float (2 ^ 52 + 2) 1).
Proof. vm_compute. reflexivity. Qed.

Example truediv_subnormal :
  fst (truediv 1 (2 ^ 1074) []) = Ret (Float 1 (-1074)).
Proof. vm_compute. reflexivity. Qed.

Example floor_ceil_negative :
  floor (Float (-7) (-1)) = -4 /\ ceil (Float (-7) (-1)) = -3.
Proof. split; reflexivity. Qed.

(** ** Running the monad *)

Lemma bind_run_ret {A B} (m : M A) (k : A -> M B) h a h' :
  m h = (Ret a, h') -> bind m k h = k a h'.
Proof. intros E. unfold bind. now rewrite E. Qed.

Lemma bind_run_raise {A B} (m : M A) (k : A -> M B) h e h' :
  m h = (Raise e, h') -> bind m k h = (Raise e, h').
Proof. intros E. unfold bind. now rewrite E. Qed.

Lemma bind_run_out_of_fuel {A B} (m : M A) (k : A -> M B) h h' :
  m h = (OutOfFuel, h') -> bind m k h = (OutOfFuel, h').
Proof. intros E. unfold bind. now rewrite E. Qed.

Lemma bind_ret_inv {A B} (m : M A) (k : A -> M B) h b h2 :
  bind m k h = (Ret b, h2) ->
  exists a h1, m h = (Ret a, h1) /\ k a h1 = (Ret b, h2).
Proof.
  unfold bind. destruct (m h) as [[a | e |] h1]; intros E.
  - now exists a, h1.
  - discriminate.
  - discriminate.
Qed.

Lemma divmod_run a b h :
  b <> 0 -> divmod a b h = (Ret (a / b, a mod b), h).
Proof.
  intros Hb. unfold divmod. destruct (Z.eqb_spec b 0); [contradiction | reflexivity].
Qed.

Lemma getitem_run (xs : list Z) (i : nat) x h :
  xs !! i = Some x -> getitem xs (Z.of_nat i) h = (Ret x, h).
Proof.
  intros E. unfold getitem.
  destruct (Z.ltb_spec (Z.of_nat i) 0); [lia |].
  destruct (Z.ltb_spec (Z.of_nat i) 0); [lia |].
  now rewrite Nat2Z.id, E.
Qed.

Lemma getitem_last_run (xs : list Z) x h :
  last xs = Some x -> getitem xs (-1) h = (Ret x, h).
Proof.
  intros E. unfold getitem. change (-1 <? 0) with true. cbv iota zeta.
  assert (length xs <> 0%nat) by (destruct xs; [discriminate | simpl; lia]).
  destruct (Z.ltb_spec (-1 + Z.of_nat (length xs)) 0); [lia |].
  replace (Z.to_nat (-1 + Z.of_nat (length xs))) with (Nat.pred (length xs)) by lia.
  rewrite last_lookup in E. now rewrite E.
Qed.

Lemma euclid_pos d v qs g : euclid d v qs g -> 0 < v /\ 0 < g.
Proof. induction 1; lia. Qed.

Lemma euclid_gcd d v qs g : euclid d v qs g -> g = Z.gcd d v.
Proof.
  induction 1 as [d v Hv Hr | d v qs g Hv Hr _ IH].
  - apply Z.mod_divide in Hr; [| lia].
    rewrite Z.gcd_comm. symmetry. apply Z.divide_gcd_iff; [lia | exact Hr].
  - rewrite IH, Z.gcd_comm, Z.gcd_mod by lia. apply Z.gcd_comm.
Qed.

Lemma euclid_functional d v qs g qs' g' :
  euclid d v qs g -> euclid d v qs' g' -> qs = qs' /\ g = g'.
Proof.
  intros H. revert qs' g'.
  induction H as [d v Hv Hr | d v qs g Hv Hr _ IH]; intros qs' g' H';
    inversion H'; subst; try contradiction.
  - now split.
  - match goal with
    | He : euclid v (d mod v) _ _ |- _ => destruct (IH _ _ He) as [-> ->]
    end.
    now split.
Qed.

(** Two steps at least halve the divisor, so the number of quotients is
    logarithmic in [v]. *)
Lemma euclid_exists d v :
  0 < v ->
  exists qs g, euclid d v qs g /\ Z.of_nat (length qs) <= 2 * Z.log2 v.
Proof.
  intros Hv.
  assert (Hn : exists n : nat, v <= Z.of_nat n) by (exists (Z.to_nat v); lia).
  destruct Hn as [n Hn]. revert d v Hv Hn.
  induction n as [| n IH]; intros d v Hv Hn; [lia |].
  pose proof (Z.log2_nonneg v) as Hlog.
  destruct (Z.eq_dec (d mod v) 0) as [Hr | Hr].
  { exists [], v. split; [now constructor | simpl; lia]. }
  pose proof (Z.mod_pos_bound d v Hv) as Hrb.
  set (r := d mod v) in *.
  assert (Hlog1 : 1 <= Z.log2 v).
  { change 1 with (Z.log2 2). apply Z.log2_le_mono. lia. }
  destruct (Z.eq_dec (v mod r) 0) as [Hr' | Hr'].
  { exists [d / v], r. split; [| simpl; lia].
    apply euclid_step; [lia | exact Hr |]. apply euclid_stop; [lia | exact Hr']. }
  pose proof (Z.mod_pos_bound v r ltac:(lia)) as Hrb'.
  destruct (IH r (v mod r) ltac:(lia) ltac:(lia)) as (qs & g & He & Hlen).
  exists (d / v :: v / r :: qs), g. split.
  - apply euclid_step; [lia | exact Hr |].
    apply euclid_step; [lia | exact Hr' | exact He].
  - assert (Hhalf : 2 * (v mod r) <= v).
    { pose proof (Z.div_mod v r ltac:(lia)) as Hdm.
      assert (1 <= v / r) by (apply Z.div_le_lower_bound; lia).
      nia. }
    assert (Z.log2 (v mod r) + 1 <= Z.log2 v).
    { pose proof (Z.log2_double (v mod r) ltac:(lia)).
      pose proof (Z.log2_le_mono _ _ Hhalf). lia. }
    simpl length. lia.
Qed.

(** ** [gcd] follows the Euclidean reduction *)

Lemma extended_nil l h : extended l [] h = h.
Proof. unfold extended. apply list_alter_id. intros xs. apply app_nil_r. Qed.

Lemma extended_cons l q qs h :
  extended l qs (alter (fun xs => xs ++ [q]) l h) = extended l (q :: qs) h.
Proof.
  unfold extended. rewrite list_alter_alter_eq.
  apply list_alter_ext; [| reflexivity].
  intros xs _. simpl. now rewrite <- app_assoc.
Qed.

Lemma extended_lookup l qs h xs :
  h !! l = Some xs -> extended l qs h !! l = Some (xs ++ qs).
Proof. intros E. unfold extended. rewrite list_lookup_alter_eq, E. reflexivity. Qed.

Lemma extended_lookup_ne l l' qs h :
  l <> l' -> extended l qs h !! l' = h !! l'.
Proof. intros Hne. unfold extended. now apply list_lookup_alter_ne. Qed.

Lemma extended_length l qs h : length (extended l qs h) = length h.
Proof. unfold extended. apply length_alter. Qed.

Lemma gcd_raise fuel d v l h :
  v <= 0 -> gcd (S fuel) d v l h = (Raise InvalidDivisor, h).
Proof.
  intros Hv. simpl. destruct (Z.leb_spec v 0); [reflexivity | lia].
Qed.

Lemma gcd_unfold fuel d v l h :
  0 < v ->
  gcd (S fuel) d v l h =
  if d mod v =? 0 then (Ret (v, l), h)
  else gcd fuel v (d mod v) l (alter (fun xs => xs ++ [d / v]) l h).
Proof.
  intros Hv. simpl. destruct (Z.leb_spec v 0); [lia |].
  rewrite (bind_run_ret _ _ _ _ _ (divmod_run d v h ltac:(lia))).
  destruct (d mod v =? 0); reflexivity.
Qed.

Lemma gcd_run d v qs g :
  euclid d v qs g ->
  forall fuel l h,
    (length qs < fuel)%nat ->
    gcd fuel d v l h = (Ret (g, l), extended l qs h).
Proof.
  induction 1 as [d v Hv Hr | d v qs g Hv Hr _ IH]; intros fuel l h Hf;
    (destruct fuel as [| fuel]; [simpl in Hf; lia |]);
    rewrite gcd_unfold by assumption.
  - rewrite Hr. simpl. now rewrite extended_nil.
  - destruct (Z.eqb_spec (d mod v) 0); [contradiction |].
    rewrite IH by (simpl in Hf; lia). now rewrite extended_cons.
Qed.

Lemma gcd_out_of_fuel d v qs g :
  euclid d v qs g ->
  forall fuel l h,
    (fuel <= length qs)%nat ->
    fst (gcd fuel d v l h) = OutOfFuel.
Proof.
  induction 1 as [d v Hv Hr | d v qs g Hv Hr _ IH]; intros fuel l h Hf;
    (destruct fuel as [| fuel]; [reflexivity |]).
  - simpl in Hf. lia.
  - rewrite gcd_unfold by assumption.
    destruct (Z.eqb_spec (d mod v) 0); [contradiction |].
    apply IH. simpl in Hf. lia.
Qed.

Lemma gcd_ret_inv fuel d v l h g l' h' :
  gcd fuel d v l h = (Ret (g, l'), h') ->
  exists qs,
    euclid d v qs g /\ l' = l /\ (length qs < fuel)%nat /\
    h' = extended l qs h.
Proof.
  revert d v h. induction fuel as [| fuel IH]; intros d v h E; [discriminate |].
  destruct (Z.leb_spec v 0) as [Hv | Hv].
  { rewrite gcd_raise in E by assumption. discriminate. }
  rewrite gcd_unfold in E by assumption.
  destruct (Z.eqb_spec (d mod v) 0) as [Hr | Hr].
  - injection E as <- <- <-. exists []. repeat split.
    + now constructor.
    + simpl. lia.
    + now rewrite extended_nil.
  - destruct (IH _ _ _ E) as (qs & He & -> & Hlen & ->).
    exists (d / v :: qs). repeat split.
    + now constructor.
    + simpl. lia.
    + now rewrite extended_cons.
Qed.

Lemma gcd_total d v :
  0 < v ->
  exists qs,
    euclid d v qs (Z.gcd d v) /\
    Z.of_nat (length qs) <= 2 * Z.log2 v /\
    forall fuel l h,
      enough_fuel v fuel ->
      gcd fuel d v l h = (Ret (Z.gcd d v, l), extended l qs h).
Proof.
  intros Hv. destruct (euclid_exists d v Hv) as (qs & g & He & Hlen).
  pose proof (euclid_gcd _ _ _ _ He) as ->.
  exists qs. repeat split; [assumption | assumption |].
  intros fuel l h Hf. apply (gcd_run _ _ _ _ He). unfold enough_fuel in Hf. lia.
Qed.

(** ** [lincomb]: back-substitution over the quotients *)

Lemma extended_fresh (h : list (list Z)) qs :
  extended (length h) qs (h ++ [[]]) = h ++ [qs].
Proof.
  unfold extended.
  replace (length h) with (length h + 0)%nat at 1 by lia.
  now rewrite alter_app_r.
Qed.

(** Loop invariant: the last two entries of [aa] and [bb] express the
    current dividend [x] and divisor [y] as combinations of [d] and [v]. *)
Lemma lincomb_loop_run x y qs g :
  euclid x y qs g ->
  forall (i : nat) (aa bb : list Z) a0 a1 b0 b1 d v,
    length aa = S (S i) -> length bb = S (S i) ->
    aa !! i = Some a0 -> aa !! S i = Some a1 ->
    bb !! i = Some b0 -> bb !! S i = Some b1 ->
    a0 * d + b0 * v = x -> a1 * d + b1 * v = y ->
    exists aa' bb' a b,
      last aa' = Some a /\ last bb' = Some b /\ a * d + b * v = g /\
      forall h, lincomb_loop (Z.of_nat i) qs aa bb h = (Ret (aa', bb'), h).
Proof.
  induction 1 as [x y Hy Hr | x y qs g Hy Hr _ IH];
    intros i aa bb a0 a1 b0 b1 d v La Lb Ha0 Ha1 Hb0 Hb1 Hx Hyy.
  - exists aa, bb, a1, b1. repeat split.
    + rewrite last_lookup, La. exact Ha1.
    + rewrite last_lookup, Lb. exact Hb1.
    + exact Hyy.
  - destruct (IH (S i) (aa ++ [a0 - x / y * a1]) (bb ++ [b0 - x / y * b1])
                a1 (a0 - x / y * a1) b1 (b0 - x / y * b1) d v)
      as (aa' & bb' & a & b & Hla & Hlb & Hab & Hloop).
    + rewrite length_app, La. simpl. lia.
    + rewrite length_app, Lb. simpl. lia.
    + rewrite lookup_app_l by lia. exact Ha1.
    + rewrite <- La. apply list_lookup_middle. reflexivity.
    + rewrite lookup_app_l by lia. exact Hb1.
    + rewrite <- Lb. apply list_lookup_middle. reflexivity.
    + exact Hyy.
    + rewrite (Z.mod_eq x y) by lia. lia.
    + exists aa', bb', a, b. repeat split; try assumption.
      intros h. simpl lincomb_loop.
      replace (Z.of_nat i + 1) with (Z.of_nat (S i)) by lia.
      rewrite (bind_run_ret _ _ _ _ _ (getitem_run aa i a0 h Ha0)).
      rewrite (bind_run_ret _ _ _ _ _ (getitem_run aa (S i) a1 h Ha1)).
      rewrite (bind_run_ret _ _ _ _ _ (getitem_run bb i b0 h Hb0)).
      rewrite (bind_run_ret _ _ _ _ _ (getitem_run bb (S i) b1 h Hb1)).
      apply Hloop.
Qed.

(** The coefficients depend on [d] and [v] only; the heap gains the list
    of quotients that [lincomb] allocated. *)
Lemma lincomb_run d v qs g :
  euclid d v qs g ->
  exists a b,
    a * d + b * v = g /\
    forall fuel h,
      (length qs < fuel)%nat ->
      lincomb fuel d v h = (Ret (g, a, b), h ++ [qs]).
Proof.
  intros He.
  assert (Hpre : forall fuel h (k : Z * loc -> M (Z * Z * Z)),
             (length qs < fuel)%nat ->
             (let* l := new_list [] in
              let* r := gcd fuel d v l in k r) h
             = k (g, length h) (h ++ [qs])).
  { intros fuel h k Hf.
    rewrite (bind_run_ret (new_list []) _ h (length h) (h ++ [[]]) eq_refl).
    rewrite (bind_run_ret _ _ _ _ _ (gcd_run _ _ _ _ He fuel _ _ Hf)).
    now rewrite extended_fresh. }
  assert (Hread : forall h (k : list Z -> M (Z * Z * Z)),
             (let* qv := read (length h) in k qv) (h ++ [qs])
             = k qs (h ++ [qs])).
  { intros h k. apply bind_run_ret. unfold read.
    now rewrite list_lookup_middle. }
  inversion He as [d' v' Hv Hr | d' v' qs' g' Hv Hr He']; subst.
  - exists 0, 1. split; [lia |]. intros fuel h Hf. unfold lincomb.
    rewrite Hpre by assumption. now rewrite Hread.
  - destruct (lincomb_loop_run _ _ _ _ He' 0%nat [0; 1] [1; - (d / v)]
                0 1 1 (- (d / v)) d v)
      as (aa' & bb' & a & b & Hla & Hlb & Hab & Hloop);
      try reflexivity; try lia.
    { rewrite (Z.mod_eq d v) by lia. lia. }
    exists a, b. split; [exact Hab |]. intros fuel h Hf. unfold lincomb.
    rewrite Hpre by assumption. rewrite Hread.
    simpl (length _ =? 0)%nat. cbv iota.
    rewrite (bind_run_ret _ _ _ _ _
               (getitem_run (d / v :: qs') 0 (d / v) (h ++ [d / v :: qs']) eq_refl)).
    simpl drop. change (Z.of_nat 0) with 0 in Hloop.
    rewrite (bind_run_ret _ _ _ _ _ (Hloop _)).
    rewrite (bind_run_ret _ _ _ _ _ (getitem_last_run aa' a _ Hla)).
    rewrite (bind_run_ret _ _ _ _ _ (getitem_last_run bb' b _ Hlb)).
    reflexivity.
Qed.

Lemma lincomb_raise fuel d v h :
  v <= 0 -> fst (lincomb (S fuel) d v h) = Raise InvalidDivisor.
Proof.
  intros Hv. unfold lincomb.
  rewrite (bind_run_ret (new_list []) _ h (length h) (h ++ [[]]) eq_refl).
  now rewrite (bind_run_raise _ _ _ _ _ (gcd_raise fuel d v _ _ Hv)).
Qed.

(** ** Floats: rounding and exactness *)

(** The rounded mantissa is within half a unit of the scaled quotient. *)
Lemma round_half_even_near num den :
  0 <= num -> 0 < den ->
  - den <= 2 * (round_half_even num den * den - num) <= den.
Proof.
  intros Hn Hd. unfold round_half_even.
  pose proof (Z.div_mod num den ltac:(lia)) as Hdm.
  pose proof (Z.mod_pos_bound num den Hd) as Hr.
  destruct (Z.ltb_spec (2 * (num mod den)) den).
  - nia.
  - destruct (Z.ltb_spec den (2 * (num mod den))).
    + nia.
    + destruct (Z.even (num / den)); nia.
Qed.

(** An integral quotient is not changed. *)
Lemma round_half_even_exact q den :
  0 < den -> round_half_even (q * den) den = q.
Proof.
  intros Hd. unfold round_half_even.
  rewrite Z.mod_mul by lia. rewrite Z.div_mul by lia.
  destruct (Z.ltb_spec (2 * 0) den); [reflexivity | lia].
Qed.

(** [log2_quot n d] is the binary exponent of the quotient [n / d]. *)
Lemma log2_quot_spec n d :
  0 < n -> 0 < d ->
  let k := log2_quot n d in
  (0 <= k -> d * 2 ^ k <= n < d * 2 ^ (k + 1)) /\
  (k < 0 -> d <= n * 2 ^ (- k) < 2 * d).
Proof.
  intros Hn Hd.
  pose proof (Z.log2_spec n Hn) as [Hn1 Hn2].
  pose proof (Z.log2_spec d Hd) as [Hd1 Hd2].
  pose proof (Z.log2_nonneg n) as Hln. pose proof (Z.log2_nonneg d) as Hld.
  unfold log2_quot. cbv zeta.
  set (ln := Z.log2 n) in *. set (ld := Z.log2 d) in *.
  rewrite <- Z.add_1_r in Hn2, Hd2.
  rewrite Z.pow_add_r in Hn2, Hd2 by lia. change (2 ^ 1) with 2 in *.
  destruct (Z.leb_spec 0 (ln - ld)) as [Hk | Hk].
  - assert (Hln' : 2 ^ ln = 2 ^ ld * 2 ^ (ln - ld)).
    { rewrite <- Z.pow_add_r by lia. f_equal. lia. }
    assert (0 < 2 ^ (ln - ld)) by (apply Z.pow_pos_nonneg; lia).
    assert (0 < 2 ^ ld) by (apply Z.pow_pos_nonneg; lia).
    destruct (Z.ltb_spec n (d * 2 ^ (ln - ld))) as [Ht | Ht].
    + split; intros Hs.
      * replace (ln - ld - 1 + 1) with (ln - ld) by lia.
        split; [| lia].
        assert (Hp : 2 ^ (ln - ld) = 2 * 2 ^ (ln - ld - 1)).
        { replace (ln - ld) with (1 + (ln - ld - 1)) at 1 by lia.
          rewrite Z.pow_add_r by lia. reflexivity. }
        nia.
      * assert (ln - ld = 0) as Hz by lia. rewrite Hz in *.
        change (- (0 - 1)) with 1. change (2 ^ 1) with 2.
        change (2 ^ 0) with 1 in *. nia.
    + split; intros Hs; [| lia].
      split; [lia |].
      rewrite Z.pow_add_r by lia. change (2 ^ 1) with 2. nia.
  - assert (Hld' : 2 ^ ld = 2 ^ ln * 2 ^ (- (ln - ld))).
    { rewrite <- Z.pow_add_r by lia. f_equal. lia. }
    assert (0 < 2 ^ (- (ln - ld))) by (apply Z.pow_pos_nonneg; lia).
    assert (0 < 2 ^ ln) by (apply Z.pow_pos_nonneg; lia).
    destruct (Z.ltb_spec (n * 2 ^ (- (ln - ld))) d) as [Ht | Ht].
    + split; intros Hs; [lia |].
      replace (- (ln - ld - 1)) with (- (ln - ld) + 1) by lia.
      rewrite Z.pow_add_r by lia. change (2 ^ 1) with 2. nia.
    + split; intros Hs; [lia |]. nia.
Qed.

Lemma pow2_lt_inv x y : 0 <= y -> 2 ^ x < 2 ^ y -> x < y.
Proof.
  intros Hy H. destruct (Z.lt_ge_cases x y) as [| Hge]; [assumption |].
  pose proof (Z.pow_le_mono_r 2 y x ltac:(lia) Hge). lia.
Qed.

(** The exponent chosen for a quotient whose numerator fits 53 bits. *)
Lemma log2_quot_range n d :
  0 < n < 2 ^ 53 -> 0 < d < 2 ^ 1022 ->
  - 1022 <= log2_quot n d <= 52.
Proof.
  intros Hn Hd.
  pose proof (log2_quot_spec n d ltac:(lia) ltac:(lia)) as Hk. cbv zeta in Hk.
  set (k := log2_quot n d) in *. destruct Hk as [Hk1 Hk2].
  remember (2 ^ 53) as B53 eqn:E53. remember (2 ^ 1022) as B1022 eqn:E1022.
  split.
  - destruct (Z.lt_ge_cases k 0) as [Hneg | ]; [| lia].
    specialize (Hk2 Hneg).
    assert (0 < 2 ^ (- k)) by (apply Z.pow_pos_nonneg; lia).
    assert (2 ^ (- k) < 2 ^ 1023).
    { replace (2 ^ 1023) with (2 * B1022) by (subst B1022; reflexivity). nia. }
    pose proof (pow2_lt_inv (- k) 1023 ltac:(lia) ltac:(assumption)). lia.
  - destruct (Z.lt_ge_cases k 0) as [| Hpos]; [lia |].
    specialize (Hk1 Hpos).
    assert (0 < 2 ^ k) by (apply Z.pow_pos_nonneg; lia).
    assert (2 ^ k < 2 ^ 53) by (rewrite <- E53; nia).
    pose proof (pow2_lt_inv k 53 ltac:(lia) ltac:(assumption)). lia.
Qed.

(** Rounding a quotient with a 53-bit numerator keeps it strictly between
    the same two integers: with [s] the scaling of the mantissa,
    [m = round (n * 2^s / d)] lies strictly between [(n / d) * 2^s] and
    [(n / d + 1) * 2^s] unless [d] divides [n]. *)
Lemma scaled_mantissa n d s :
  0 < n -> 0 < d -> 0 <= s ->
  d < 2 * 2 ^ s ->
  let m := round_half_even (n * 2 ^ s) d in
  (n mod d = 0 -> m = n / d * 2 ^ s) /\
  (n mod d <> 0 -> n / d * 2 ^ s < m < (n / d + 1) * 2 ^ s).
Proof.
  intros Hn Hd Hs Hsd m.
  assert (HP : 0 < 2 ^ s) by (apply Z.pow_pos_nonneg; lia).
  pose proof (round_half_even_near (n * 2 ^ s) d ltac:(nia) ltac:(lia)) as Hnear.
  fold m in Hnear.
  pose proof (Z.div_mod n d ltac:(lia)) as Hdm.
  pose proof (Z.mod_pos_bound n d ltac:(lia)) as Hr.
  assert (Hq : 0 <= n / d) by (apply Z.div_pos; lia).
  set (P := 2 ^ s) in *. set (q0 := n / d) in *. set (r0 := n mod d) in *.
  split.
  - intros Hz. unfold m.
    replace (n * P) with (q0 * P * d) by nia.
    now apply round_half_even_exact.
  - intros Hnz.
    assert (HN : n * P = q0 * P * d + r0 * P) by nia.
    assert (Hlow : d < 2 * (r0 * P)) by nia.
    assert (Hup : d < 2 * ((d - r0) * P)) by nia.
    split.
    + assert (2 * (q0 * P) * d < 2 * m * d) by nia. nia.
    + assert (2 * m * d < 2 * ((q0 + 1) * P) * d) by nia. nia.
Qed.

Lemma div_between x P y : 0 < P -> y * P <= x < (y + 1) * P -> x / P = y.
Proof.
  intros HP Hx. symmetry. apply (Z.div_unique x P y (x - y * P)); lia.
Qed.

Lemma bracket_div n d m P :
  0 < d -> 0 < P ->
  (n mod d = 0 -> m = n / d * P) ->
  (n mod d <> 0 -> n / d * P < m < (n / d + 1) * P) ->
  m / P = n / d /\ (- m) / P = (- n) / d.
Proof.
  intros Hd HP Hexact Hstrict.
  pose proof (Z.div_mod n d ltac:(lia)) as Hdm.
  pose proof (Z.mod_pos_bound n d Hd) as Hr.
  destruct (Z.eq_dec (n mod d) 0) as [Hz | Hnz].
  - rewrite (Hexact Hz). rewrite Hz in Hdm. split.
    + apply Z.div_mul. lia.
    + rewrite (div_between (- (n / d * P)) P (- (n / d))) by lia.
      symmetry. apply div_between; lia.
  - specialize (Hstrict Hnz). split.
    + apply div_between; lia.
    + rewrite (div_between (- m) P (- (n / d) - 1)) by lia.
      symmetry. apply div_between; lia.
Qed.

(** [math.floor] and [math.ceil] of a float as a quotient by [2 ^ s]. *)
Lemma floor_ceil_scaled mant s :
  0 <= s ->
  floor (Float mant (- s)) = mant / 2 ^ s /\
  ceil (Float mant (- s)) = - ((- mant) / 2 ^ s).
Proof.
  intros Hs. unfold floor, ceil. simpl mantissa. simpl exponent.
  destruct (Z.leb_spec 0 (- s)) as [H0 | H0].
  - assert (s = 0) as -> by lia. change (- 0) with 0. change (2 ^ 0) with 1.
    rewrite !Z.div_1_r. lia.
  - rewrite Z.opp_involutive. now split.
Qed.

(** A quotient whose numerator fits 53 bits is rounded to a float that
    lies strictly between the same two integers as the quotient. *)
Lemma truediv_small a b :
  a <> 0 -> b <> 0 -> Z.abs a < 2 ^ 53 -> Z.abs b < 2 ^ 1022 ->
  exists s m,
    0 <= s /\
    (forall h, truediv a b h = (Ret (Float (Z.sgn a * Z.sgn b * m) (- s)), h)) /\
    (Z.abs a mod Z.abs b = 0 -> m = Z.abs a / Z.abs b * 2 ^ s) /\
    (Z.abs a mod Z.abs b <> 0 ->
     Z.abs a / Z.abs b * 2 ^ s < m < (Z.abs a / Z.abs b + 1) * 2 ^ s).
Proof.
  intros Ha Hb Hna Hnb.
  set (n := Z.abs a) in *. set (d := Z.abs b) in *.
  assert (Hn : 0 < n < 2 ^ 53) by (unfold n in *; lia).
  assert (Hd : 0 < d < 2 ^ 1022) by (unfold d in *; lia).
  pose proof (log2_quot_range n d Hn Hd) as Hk.
  pose proof (log2_quot_spec n d ltac:(lia) ltac:(lia)) as Hspec.
  cbv zeta in Hspec.
  set (k := log2_quot n d) in *. destruct Hspec as [Hk1 Hk2].
  set (s := 52 - k). assert (Hs : 0 <= s) by (unfold s; lia).
  assert (HP : 0 < 2 ^ s) by (apply Z.pow_pos_nonneg; lia).
  assert (Hnorm : 2 ^ 52 * d <= n * 2 ^ s).
  { remember (2 ^ 52) as B52 eqn:E52.
    destruct (Z.lt_ge_cases k 0) as [Hneg | Hpos].
    - specialize (Hk2 Hneg).
      assert (E : 2 ^ s = 2 ^ (- k) * B52).
      { subst B52. rewrite <- Z.pow_add_r by lia. f_equal. unfold s. lia. }
      rewrite E. assert (0 < B52) by (subst B52; reflexivity). nia.
    - specialize (Hk1 Hpos). destruct Hk1 as [Hk1 _].
      assert (E : B52 = 2 ^ k * 2 ^ s).
      { subst B52. rewrite <- Z.pow_add_r by lia. f_equal. unfold s. lia. }
      rewrite E.
      assert (0 < 2 ^ k) by (apply Z.pow_pos_nonneg; lia). nia. }
  assert (Hsd : d < 2 * 2 ^ s).
  { assert (E : 2 ^ 53 = 2 * 2 ^ 52) by reflexivity.
    remember (2 ^ 52) as B52 eqn:E52. remember (2 ^ 53) as B53 eqn:E53.
    clear E52 E53 Hk Hk1 Hk2. nia. }
  pose proof (scaled_mantissa n d s ltac:(lia) ltac:(lia) Hs Hsd) as Hm.
  cbv zeta in Hm. set (m := round_half_even (n * 2 ^ s) d) in *.
  exists s, m. split; [exact Hs |]. split; [| exact Hm].
  intros h. unfold truediv.
  destruct (Z.eqb_spec b 0); [contradiction |].
  destruct (Z.eqb_spec a 0); [contradiction |].
  cbv zeta. fold n. fold d. fold k.
  assert (He : Z.max (k - (float_prec - 1)) float_emin = - s).
  { unfold float_prec, float_emin, s. lia. }
  rewrite He.
  assert (Hmm : (if 0 <=? - s then round_half_even n (d * 2 ^ (- s))
                 else round_half_even (n * 2 ^ (- - s)) d) = m).
  { destruct (Z.leb_spec 0 (- s)).
    - assert (s = 0) as Hs0 by lia. unfold m. rewrite Hs0.
      change (- 0) with 0. change (2 ^ 0) with 1. now rewrite !Z.mul_1_r.
    - now rewrite Z.opp_involutive. }
  rewrite Hmm.
  assert (Hov : (0 <=? - s) && (2 ^ float_emax <=? m * 2 ^ (- s)) = false).
  { destruct (Z.leb_spec 0 (- s)) as [H0 | H0]; [| reflexivity].
    assert (s = 0) as Hs0 by lia. simpl andb.
    apply Z.leb_gt. rewrite Hs0. change (- 0) with 0. change (2 ^ 0) with 1.
    rewrite Z.mul_1_r.
    assert (Hmle : m <= n + 1).
    { destruct Hm as [Hm1 Hm2]. rewrite Hs0 in Hm1, Hm2.
      change (2 ^ 0) with 1 in Hm1, Hm2.
      pose proof (Z.div_le_upper_bound n d n ltac:(lia)) as Hqn.
      assert (n / d <= n) by (apply Hqn; nia).
      destruct (Z.eq_dec (n mod d) 0) as [Hz | Hnz];
        [rewrite (Hm1 Hz) | specialize (Hm2 Hnz)]; lia. }
    assert (2 ^ 53 < 2 ^ float_emax).
    { unfold float_emax. apply Z.pow_lt_mono_r; lia. }
    lia. }
  rewrite Hov. reflexivity.
Qed.

(** Where the numerator fits 53 bits, [floor] and [ceil] of the rounded
    quotient are the floor and the ceiling of the exact quotient. *)
Lemma truediv_exact a b :
  b <> 0 -> Z.abs a < 2 ^ 53 -> Z.abs b < 2 ^ 1022 ->
  exists x,
    (forall h, truediv a b h = (Ret x, h)) /\
    floor x = a / b /\ ceil x = - ((- a) / b).
Proof.
  intros Hb Hna Hnb.
  destruct (Z.eq_dec a 0) as [-> | Ha].
  { exists (Float 0 0). split.
    - intros h. unfold truediv. destruct (Z.eqb_spec b 0); [contradiction |].
      reflexivity.
    - change (- 0) with 0. rewrite Z.div_0_l by assumption. now split. }
  destruct (truediv_small a b Ha Hb Hna Hnb) as (s & m & Hs & Hrun & Hex & Hst).
  assert (HP : 0 < 2 ^ s) by (apply Z.pow_pos_nonneg; lia).
  destruct (bracket_div (Z.abs a) (Z.abs b) m (2 ^ s) ltac:(lia) HP Hex Hst)
    as [Hfl Hcl].
  eexists. split; [exact Hrun |].
  destruct (floor_ceil_scaled (Z.sgn a * Z.sgn b * m) s Hs) as [-> ->].
  destruct (Z.abs_spec a) as [[Hsa Ea] | [Hsa Ea]];
    destruct (Z.abs_spec b) as [[Hsb Eb] | [Hsb Eb]];
    rewrite Ea, Eb in Hfl, Hcl.
  - rewrite (Z.sgn_pos a), (Z.sgn_pos b) by lia.
    replace (1 * 1 * m) with m by lia. now rewrite Hfl, Hcl.
  - rewrite (Z.sgn_pos a), (Z.sgn_neg b) by lia.
    replace (1 * -1 * m) with (- m) by lia. rewrite Z.opp_involutive.
    rewrite Hfl, Hcl.
    rewrite <- (Z.div_opp_opp (- a) b) by assumption.
    rewrite <- (Z.div_opp_opp a b) by assumption.
    now rewrite Z.opp_involutive.
  - rewrite (Z.sgn_neg a), (Z.sgn_pos b) by lia.
    replace (-1 * 1 * m) with (- m) by lia. rewrite Z.opp_involutive.
    rewrite Hfl, Hcl. now rewrite Z.opp_involutive.
  - rewrite (Z.sgn_neg a), (Z.sgn_neg b) by lia.
    replace (-1 * -1 * m) with m by lia. rewrite Hfl, Hcl.
    rewrite Z.div_opp_opp by assumption.
    rewrite <- (Z.div_opp_opp (- a) b) by assumption.
    now rewrite Z.opp_involutive.
Qed.

(** The ceiling and the floor of an exact quotient against an integer. *)
Lemma ceil_div_le x d n : d <> 0 ->
  - ((- x) / d) <= n <-> (if 0 <? d then x <= n * d else n * d <= x).
Proof.
  intros Hd. pose proof (Z.div_mod (- x) d Hd) as Hdm.
  destruct (Z.ltb_spec 0 d).
  - pose proof (Z.mod_pos_bound (- x) d ltac:(lia)). split; nia.
  - pose proof (Z.mod_neg_bound (- x) d ltac:(lia)). split; nia.
Qed.

Lemma le_floor_div y d n : d <> 0 ->
  n <= y / d <-> (if 0 <? d then n * d <= y else y <= n * d).
Proof.
  intros Hd. pose proof (Z.div_mod y d Hd) as Hdm.
  destruct (Z.ltb_spec 0 d).
  - pose proof (Z.mod_pos_bound y d ltac:(lia)). split; nia.
  - pose proof (Z.mod_neg_bound y d ltac:(lia)). split; nia.
Qed.

(** With small quotients [bounds] returns the interval of the parameters
    [n] whose solution is within the bound. *)
Lemma bounds_small d v p q m a b c :
  0 < v ->
  small_quotients d v p q m a b c ->
  exists lower upper,
    (forall h, bounds d v p q m a b c h = (Ret (lower, upper), h)) /\
    forall n, lower <= n <= upper <->
              bounded c p q (m * a + n * v) (m * b - n * d).
Proof.
  intros Hv Hsmall. unfold bounds, bounded.
  assert (Hgo : forall x y z,
             z <> 0 -> Z.abs x < 2 ^ 53 -> Z.abs y < 2 ^ 53 ->
             Z.abs z < 2 ^ 1022 ->
             exists lower upper,
               (forall h,
                   (let* fx := truediv x z in
                    let* fy := truediv y z in
                    ret (ceil fx, floor fy)) h = (Ret (lower, upper), h)) /\
               lower = - ((- x) / z) /\ upper = y / z).
  { intros x y z Hz Hx Hy Hzz.
    destruct (truediv_exact x z Hz Hx Hzz) as (fx & Hrx & _ & Hcx).
    destruct (truediv_exact y z Hz Hy Hzz) as (fy & Hry & Hfy & _).
    exists (ceil fx), (floor fy). split; [| now split].
    intros h. rewrite (bind_run_ret _ _ _ _ _ (Hrx h)).
    now rewrite (bind_run_ret _ _ _ _ _ (Hry h)). }
  destruct c; simpl negb; cbv iota; unfold small_quotients in Hsmall.
  - destruct Hsmall as (Hd & Hp & Hq & Hdd).
    destruct (Z.ltb_spec 0 d) as [Hpos | Hneg].
    + destruct (Hgo (m * b - q) (m * b - p) d Hd Hq Hp Hdd)
        as (lower & upper & Hrun & -> & ->).
      exists (- (- (m * b - q) / d)), ((m * b - p) / d).
      split; [exact Hrun |]. intros n.
      rewrite (ceil_div_le _ d n Hd), (le_floor_div _ d n Hd).
      destruct (Z.ltb_spec 0 d); lia.
    + destruct (Hgo (m * b - p) (m * b - q) d Hd Hp Hq Hdd)
        as (lower & upper & Hrun & -> & ->).
      exists (- (- (m * b - p) / d)), ((m * b - q) / d).
      split; [exact Hrun |]. intros n.
      rewrite (ceil_div_le _ d n Hd), (le_floor_div _ d n Hd).
      destruct (Z.ltb_spec 0 d); lia.
  - destruct Hsmall as (Hp & Hq & Hvv).
    destruct (Hgo (p - m * a) (q - m * a) v ltac:(lia) Hp Hq ltac:(lia))
      as (lower & upper & Hrun & -> & ->).
    exists (- (- (p - m * a) / v)), ((q - m * a) / v).
    split; [exact Hrun |]. intros n.
    rewrite (ceil_div_le _ v n ltac:(lia)), (le_floor_div _ v n ltac:(lia)).
    destruct (Z.ltb_spec 0 v); lia.
Qed.

(** ** [diophantine]: the path through the function *)

Lemma append_loop {A B} (f : A -> B) (ns : list A) (acc : list B) :
  fold_left (fun sols n => sols ++ [f n]) ns acc = acc ++ map f ns.
Proof.
  revert acc. induction ns as [| n ns IH]; intros acc; simpl.
  - now rewrite app_nil_r.
  - rewrite IH. now rewrite <- app_assoc.
Qed.

(** Division and the computation of the bounds leave the heap alone. *)
Lemma truediv_frame a b : exists r, forall h, truediv a b h = (r, h).
Proof.
  unfold truediv.
  destruct (b =? 0); [now eexists |].
  destruct (a =? 0); [now eexists |].
  cbv zeta. destruct (_ && _); now eexists.
Qed.

Lemma bind_frame {A B} (m : M A) (k : A -> M B) :
  (exists r, forall h, m h = (r, h)) ->
  (forall a, exists r, forall h, k a h = (r, h)) ->
  exists r, forall h, bind m k h = (r, h).
Proof.
  intros [[a | e |] Hm] Hk.
  - destruct (Hk a) as [r Hr]. exists r. intros h.
    now rewrite (bind_run_ret _ _ _ _ _ (Hm h)).
  - exists (Raise e). intros h. now rewrite (bind_run_raise _ _ _ _ _ (Hm h)).
  - exists OutOfFuel. intros h. now rewrite (bind_run_out_of_fuel _ _ _ _ (Hm h)).
Qed.

Lemma bounds_frame d v p q m a b c :
  exists r, forall h, bounds d v p q m a b c h = (r, h).
Proof.
  unfold bounds.
  destruct (negb c); [| destruct (0 <? d)];
    (apply bind_frame; [apply truediv_frame | intros x];
     apply bind_frame; [apply truediv_frame | intros y];
     now eexists).
Qed.

Lemma diophantine_invalid_range fuel d v w p q c h :
  q <= p -> diophantine fuel d v w p q c h = (Raise InvalidRange, h).
Proof.
  intros Hpq. unfold diophantine.
  destruct (Z.leb_spec q p); [reflexivity | lia].
Qed.

Lemma diophantine_invalid_divisor fuel d v w p q c h :
  p < q -> v <= 0 ->
  fst (diophantine (S fuel) d v w p q c h) = Raise InvalidDivisor.
Proof.
  intros Hpq Hv. unfold diophantine.
  destruct (Z.leb_spec q p); [lia |].
  rewrite (bind_run_ret (new_list []) _ h (length h) (h ++ [[]]) eq_refl).
  now rewrite (bind_run_raise _ _ _ _ _ (gcd_raise fuel d v _ _ Hv)).
Qed.

Lemma diophantine_run d v qs g a b w p q c fuel h :
  euclid d v qs g ->
  (length qs < fuel)%nat ->
  p < q ->
  lincomb fuel d v (h ++ [qs]) = (Ret (g, a, b), (h ++ [qs]) ++ [qs]) ->
  diophantine fuel d v w p q c h =
  if w mod g =? 0
  then (let* (lower, upper) := bounds d v p q (w / g) a b c in
        ret (solutions d v (w / g) a b lower upper)) ((h ++ [qs]) ++ [qs])
  else (Ret [], h ++ [qs]).
Proof.
  intros He Hf Hpq Hlin. unfold diophantine.
  destruct (Z.leb_spec q p); [lia |].
  rewrite (bind_run_ret (new_list []) _ h (length h) (h ++ [[]]) eq_refl).
  rewrite (bind_run_ret _ _ _ _ _ (gcd_run _ _ _ _ He fuel _ _ Hf)).
  rewrite extended_fresh.
  pose proof (euclid_pos _ _ _ _ He) as [_ Hg].
  rewrite (bind_run_ret _ _ _ _ _ (divmod_run w g _ ltac:(lia))).
  destruct (w mod g =? 0); cbn [negb]; [| reflexivity].
  rewrite (bind_run_ret _ _ _ _ _ Hlin).
  unfold bind. destruct (bounds _ _ _ _ _ _ _ _ _) as [[[lower upper] | e |] h'];
    try reflexivity.
  unfold ret, solutions. now rewrite append_loop.
Qed.

Lemma diophantine_ret_inv fuel d v w p q c h sols h' :
  diophantine fuel d v w p q c h = (Ret sols, h') ->
  exists qs g a b,
    euclid d v qs g /\ (length qs < fuel)%nat /\ p < q /\
    a * d + b * v = g /\
    (forall h0, lincomb fuel d v h0 = (Ret (g, a, b), h0 ++ [qs])) /\
    ((w mod g <> 0 /\ sols = []) \/
     (w mod g = 0 /\
      exists lower upper,
        bounds d v p q (w / g) a b c h' = (Ret (lower, upper), h') /\
        sols = solutions d v (w / g) a b lower upper)).
Proof.
  intros E.
  destruct (Z.leb_spec q p) as [Hpq | Hpq].
  { rewrite diophantine_invalid_range in E by assumption. discriminate. }
  assert (Hg : exists g l1 h1,
             gcd fuel d v (length h) (h ++ [[]]) = (Ret (g, l1), h1)).
  { unfold diophantine in E. destruct (Z.leb_spec q p); [lia |].
    rewrite (bind_run_ret (new_list []) _ h (length h) (h ++ [[]]) eq_refl) in E.
    apply bind_ret_inv in E. destruct E as ([g l1] & h1 & E1 & _). eauto. }
  destruct Hg as (g & l1 & h1 & Hg).
  apply gcd_ret_inv in Hg. destruct Hg as (qs & He & _ & Hf & _).
  destruct (lincomb_run _ _ _ _ He) as (a & b & Hab & Hlin).
  exists qs, g, a, b. repeat split; try assumption.
  { intros h0. now apply Hlin. }
  rewrite (diophantine_run _ _ _ _ a b w p q c fuel h He Hf Hpq) in E
    by now apply Hlin.
  destruct (Z.eqb_spec (w mod g) 0) as [Hr | Hr].
  - right. split; [assumption |].
    destruct (bounds_frame d v p q (w / g) a b c) as [r Hb].
    unfold bind in E. rewrite Hb in E.
    destruct r as [[lower upper] | e |]; try discriminate.
    injection E as <- <-. exists lower, upper. split; [apply Hb | reflexivity].
  - left. injection E as <- <-. now split.
Qed.

Lemma enough_fuel_mod d v fuel :
  0 < v -> d mod v <> 0 -> enough_fuel v fuel -> enough_fuel (d mod v) fuel.
Proof.
  unfold enough_fuel. intros Hv Hr Hf.
  pose proof (Z.mod_pos_bound d v Hv).
  pose proof (Z.log2_le_mono (d mod v) v ltac:(lia)). lia.
Qed.

Lemma solutions_lookup d v m a b lower upper (k : nat) s t :
  solutions d v m a b lower upper !! k = Some (s, t) ->
  s = m * a + (lower + Z.of_nat k) * v /\
  t = m * b - (lower + Z.of_nat k) * d.
Proof.
  unfold solutions, range. rewrite list_lookup_fmap.
  destruct (seqZ lower (upper + 1 - lower) !! k) as [n |] eqn:E; [| discriminate].
  apply lookup_seqZ in E. destruct E as [-> _].
  simpl. intros [= <- <-]. now split.
Qed.

Lemma seqZ_length_id m len :
  seqZ m len = seqZ m (Z.of_nat (length (seqZ m len))).
Proof. rewrite length_seqZ. unfold seqZ. now rewrite Nat2Z.id. Qed.

Lemma solutions_elem d v m a b lower upper s t :
  (s, t) ∈ solutions d v m a b lower upper <->
  exists n, lower <= n <= upper /\ s = m * a + n * v /\ t = m * b - n * d.
Proof.
  unfold solutions, range. rewrite list_elem_of_fmap. split.
  - intros (n & E & Hn). apply elem_of_seqZ in Hn. injection E as -> ->.
    exists n. split; [lia | now split].
  - intros (n & Hn & -> & ->). exists n. split; [reflexivity |].
    apply elem_of_seqZ. lia.
Qed.

(** Where the quotients are small, [diophantine] returns exactly the
    members of the family [(m a + n v, m b - n d)] that are within the
    bound. *)
Theorem diophantine_small (fuel : nat) (d v w p q a b : Z) (c : bool)
    (h : heap) :
  0 < v -> p < q -> enough_fuel v fuel ->
  w mod Z.gcd d v = 0 ->
  fst (lincomb fuel d v h) = Ret (Z.gcd d v, a, b) ->
  small_quotients d v p q (w / Z.gcd d v) a b c ->
  exists sols,
    fst (diophantine fuel d v w p q c h) = Ret sols /\
    forall s t,
      (s, t) ∈ sols <->
      exists n, s = w / Z.gcd d v * a + n * v /\
                t = w / Z.gcd d v * b - n * d /\
                bounded c p q s t.
Proof.
  intros Hv Hpq Hf Hw Hlin Hsmall.
  destruct (gcd_total d v Hv) as (qs & He & Hlen & _).
  destruct (lincomb_run _ _ _ _ He) as (a' & b' & _ & Hlin').
  assert (Hq : (length qs < fuel)%nat) by (unfold enough_fuel in Hf; lia).
  rewrite (Hlin' _ h Hq) in Hlin. injection Hlin as <- <-.
  rewrite (diophantine_run _ _ _ _ a' b' w p q c fuel h He Hq Hpq (Hlin' _ _ Hq)).
  rewrite Hw. simpl (0 =? 0). cbv iota.
  destruct (bounds_small d v p q (w / Z.gcd d v) a' b' c Hv Hsmall)
    as (lower & upper & Hrun & Hiff).
  rewrite (bind_run_ret _ _ _ _ _ (Hrun _)).
  eexists. split; [reflexivity |].
  intros s t. rewrite solutions_elem. split.
  - intros (n & Hn & -> & ->). exists n. repeat split. now apply Hiff.
  - intros (n & -> & -> & Hb). exists n. split; [now apply Hiff | now split].
Qed.

(** With coprime [d] and [v] every solution of the equation belongs to
    the family that [diophantine] enumerates. *)
Lemma coprime_family d v w a b s t :
  a * d + b * v = 1 ->
  s * d + t * v = w ->
  s = w * a + (s * b - t * a) * v /\ t = w * b - (s * b - t * a) * d.
Proof.
  intros H1 <-. split.
  - replace s with (s * (a * d + b * v)) at 1 by (rewrite H1; ring). ring.
  - replace t with (t * (a * d + b * v)) at 1 by (rewrite H1; ring). ring.
Qed.

(** For coprime [d] and [v] and small quotients, [diophantine] returns
    exactly the solutions of the equation that are within the bound. *)
Theorem diophantine_coprime_small (fuel : nat) (d v w p q a b : Z) (c : bool)
    (h : heap) :
  0 < v -> p < q -> enough_fuel v fuel ->
  Z.gcd d v = 1 ->
  fst (lincomb fuel d v h) = Ret (1, a, b) ->
  small_quotients d v p q w a b c ->
  exists sols,
    fst (diophantine fuel d v w p q c h) = Ret sols /\
    forall s t,
      (s, t) ∈ sols <-> s * d + t * v = w /\ bounded c p q s t.
Proof.
  intros Hv Hpq Hf Hg Hlin Hsmall.
  assert (Hab : a * d + b * v = 1).
  { destruct (gcd_total d v Hv) as (qs & He & Hlen & _).
    destruct (lincomb_run _ _ _ _ He) as (a' & b' & Hab & Hlin').
    rewrite (Hlin' fuel h) in Hlin by (unfold enough_fuel in Hf; lia).
    injection Hlin as _ <- <-. now rewrite Hg in Hab. }
  destruct (diophantine_small fuel d v w p q a b c h Hv Hpq Hf) as (sols & Hrun & Hiff).
  - rewrite Hg. apply Z.mod_1_r.
  - now rewrite Hg.
  - now rewrite Hg, Z.div_1_r.
  - exists sols. split; [exact Hrun |]. intros s t. rewrite Hiff.
    rewrite Hg, Z.div_1_r. split.
    + intros (n & -> & -> & Hb). split; [| exact Hb].
      replace ((w * a + n * v) * d + (w * b - n * d) * v)
        with (w * (a * d + b * v)) by ring.
      rewrite Hab. ring.
    + intros [Heq Hb]. exists (s * b - t * a).
      destruct (coprime_family d v w a b s t Hab Heq) as [Hs Ht].
      now repeat split.
Qed.

(** The self-test case [23 s + 31 t = 4], [0 <= s <= 99]. *)
Example diophantine_23_31_exact :
  exists sols,
    fst (diophantine 10 23 31 4 0 99 false []) = Ret sols /\
    forall s t,
      (s, t) ∈ sols <-> s * 23 + t * 31 = 4 /\ bounded false 0 99 s t.
Proof.
  apply (diophantine_coprime_small 10 23 31 4 0 99 (-4) 3 false []).
  - lia.
  - lia.
  - unfold enough_fuel. simpl. lia.
  - reflexivity.
  - reflexivity.
  - unfold small_quotients. repeat split; apply Z.ltb_lt; vm_compute; reflexivity.
Qed.

(** * The claims *)

(** ** Bezout combiner *)

(** C1: for every integer [d] and every [v > 0], [lincomb] returns a triple
    [(g, a, b)] with [a * d + b * v = g], where [g] is the greatest common
    divisor of [|d|] and [v]. *)
Theorem lincomb_bezout (d v : Z) :
  0 < v ->
  exists a b,
    a * d + b * v = Z.gcd (Z.abs d) v /\
    forall fuel h,
      enough_fuel v fuel ->
      fst (lincomb fuel d v h) = Ret (Z.gcd (Z.abs d) v, a, b).
Proof.
  intros Hv. rewrite Z.gcd_abs_l.
  destruct (gcd_total d v Hv) as (qs & He & Hlen & _).
  destruct (lincomb_run _ _ _ _ He) as (a & b & Hab & Hlin).
  exists a, b. split; [exact Hab |].
  intros fuel h Hf. rewrite Hlin; [reflexivity |].
  unfold enough_fuel in Hf. lia.
Qed.

Lemma lincomb_bezout_witness :
  0 < 141 /\ enough_fuel 141 15 /\
  exists a b,
    a * 237 + b * 141 = 3 /\
    fst (lincomb 15 237 141 []) = Ret (3, a, b).
Proof.
  assert (Hv : 0 < 141) by lia.
  assert (Hf : enough_fuel 141 15) by (unfold enough_fuel; simpl; lia).
  split; [exact Hv |]. split; [exact Hf |].
  destruct (lincomb_bezout 237 141 Hv) as (a & b & Hab & Hrun).
  exists a, b. split; [exact Hab | exact (Hrun 15%nat [] Hf)].
Defined.

(** ** Reducer *)

(** C9: for every [d] and every [v > 0] the recursion of [gcd] terminates
    with a result; its depth is the number of division steps (one more
    than the number of quotients), which is at most [2 * log2 v + 1]. *)
Theorem gcd_terminates (d v : Z) :
  0 < v ->
  exists qs,
    euclid d v qs (Z.gcd d v) /\
    Z.of_nat (length qs) <= 2 * Z.log2 v /\
    forall fuel l h,
      ((length qs < fuel)%nat ->
       gcd fuel d v l h = (Ret (Z.gcd d v, l), extended l qs h)) /\
      ((fuel <= length qs)%nat -> fst (gcd fuel d v l h) = OutOfFuel).
Proof.
  intros Hv. destruct (gcd_total d v Hv) as (qs & He & Hlen & _).
  exists qs. repeat split; try assumption.
  - now apply gcd_run.
  - now apply (gcd_out_of_fuel _ _ _ _ He).
Qed.

Lemma gcd_terminates_witness :
  0 < 141 /\
  exists qs,
    euclid 237 141 qs 3 /\
    Z.of_nat (length qs) <= 2 * Z.log2 141 /\
    ((length qs < 15)%nat ->
     gcd 15 237 141 0%nat [[]] = (Ret (3, 0%nat), extended 0 qs [[]])) /\
    ((2 <= length qs)%nat -> fst (gcd 2 237 141 0%nat [[]]) = OutOfFuel).
Proof.
  assert (Hv : 0 < 141) by lia.
  split; [exact Hv |].
  destruct (gcd_terminates 237 141 Hv) as (qs & He & Hlen & Hrun).
  exists qs. split; [exact He |]. split; [exact Hlen |].
  split; [exact (proj1 (Hrun 15%nat 0%nat [[]])) |
          exact (proj2 (Hrun 2%nat 0%nat [[]]))].
Defined.

(** C5, as stated, fails when [v] divides [d]: [gcd(6, 3)] is 3, but the
    remainder is 0 and [gcd(3, 0)] raises InvalidDivisor. *)
Lemma exact_division_remainder_raises :
  0 < 3 /\
  fst (gcd 1 6 3 0%nat [[]]) = Ret (3, 0%nat) /\
  forall fuel, fst (gcd (S fuel) 3 (6 mod 3) 0%nat [[]]) = Raise InvalidDivisor.
Proof.
  split; [lia |]. split; [reflexivity |].
  intros fuel. now rewrite gcd_raise.
Qed.

(** C5, amended: for every [d] and every [v > 0] with [d mod v <> 0],
    [gcd(d, v)] and [gcd(v, d mod v)] return the same gcd; the first call
    appends the quotient [d / v] and then the quotients of the second. *)
Theorem gcd_swap_remainder (d v : Z) :
  0 < v ->
  d mod v <> 0 ->
  exists qs,
    forall fuel l h,
      enough_fuel v fuel ->
      gcd fuel d v l h = (Ret (Z.gcd d v, l), extended l (d / v :: qs) h) /\
      gcd fuel v (d mod v) l h = (Ret (Z.gcd d v, l), extended l qs h).
Proof.
  intros Hv Hr.
  destruct (euclid_exists d v Hv) as (qs & g & He & Hlen).
  rewrite <- (euclid_gcd _ _ _ _ He).
  inversion He as [d' v' _ Hr' | d' v' qs' g' _ _ He']; subst; [contradiction |].
  exists qs'. intros fuel l h Hf. unfold enough_fuel in Hf. simpl in Hlen.
  split.
  - apply (gcd_run _ _ _ _ He). simpl. lia.
  - apply (gcd_run _ _ _ _ He'). lia.
Qed.

Lemma gcd_swap_remainder_witness :
  0 < 141 /\ 237 mod 141 <> 0 /\ enough_fuel 141 15 /\
  exists qs,
    gcd 15 237 141 0%nat [[]]
    = (Ret (3, 0%nat), extended 0 (237 / 141 :: qs) [[]]) /\
    gcd 15 141 (237 mod 141) 0%nat [[]] = (Ret (3, 0%nat), extended 0 qs [[]]).
Proof.
  assert (Hv : 0 < 141) by lia.
  assert (Hr : 237 mod 141 <> 0) by discriminate.
  assert (Hf : enough_fuel 141 15) by (unfold enough_fuel; simpl; lia).
  split; [exact Hv |]. split; [exact Hr |]. split; [exact Hf |].
  destruct (gcd_swap_remainder 237 141 Hv Hr) as (qs & Hrun).
  exists qs. exact (Hrun 15%nat 0%nat [[]] Hf).
Defined.

(** C7, as stated, fails: [gcd] has a third argument, the list [qs], and
    appends to it in place; the caller's list is changed by the call and
    the returned list depends on what it held. *)
Lemma gcd_extends_argument :
  gcd 2 5 2 0%nat [[7]] = (Ret (1, 0%nat), [[7; 2]]) /\
  gcd 2 5 2 0%nat [[]] = (Ret (1, 0%nat), [[2]]) /\
  snd (gcd 2 5 2 0%nat [[7]]) <> [[7]] /\
  snd (gcd 2 5 2 0%nat [[7]]) <> snd (gcd 2 5 2 0%nat [[]]).
Proof. repeat split; discriminate. Qed.

(** C7, amended: for [v > 0] the gcd returned and the quotients appended
    are determined by [d] and [v] alone; [gcd] returns the list object it
    was given, whose content is the content on entry followed by the
    quotients; no other list object is changed and none is created. *)
Theorem gcd_effect (d v : Z) :
  0 < v ->
  exists qs,
    forall fuel l h,
      enough_fuel v fuel ->
      gcd fuel d v l h = (Ret (Z.gcd d v, l), extended l qs h) /\
      (forall xs, h !! l = Some xs -> extended l qs h !! l = Some (xs ++ qs)) /\
      (forall l', l <> l' -> extended l qs h !! l' = h !! l') /\
      length (extended l qs h) = length h.
Proof.
  intros Hv. destruct (gcd_total d v Hv) as (qs & _ & _ & Hrun).
  exists qs. intros fuel l h Hf. repeat split.
  - now apply Hrun.
  - intros xs. apply extended_lookup.
  - intros l'. apply extended_lookup_ne.
  - apply extended_length.
Qed.

Lemma gcd_effect_witness :
  0 < 141 /\ enough_fuel 141 15 /\
  exists qs,
    gcd 15 237 141 1%nat [[5]; [7]] = (Ret (3, 1%nat), extended 1 qs [[5]; [7]]) /\
    (forall xs, [[5]; [7]] !! 1%nat = Some xs ->
                extended 1 qs [[5]; [7]] !! 1%nat = Some (xs ++ qs)) /\
    (forall l', 1%nat <> l' -> extended 1 qs [[5]; [7]] !! l' = [[5]; [7]] !! l') /\
    length (extended 1 qs [[5]; [7]]) = length [[5]; [7]].
Proof.
  assert (Hv : 0 < 141) by lia.
  assert (Hf : enough_fuel 141 15) by (unfold enough_fuel; simpl; lia).
  split; [exact Hv |]. split; [exact Hf |].
  destruct (gcd_effect 237 141 Hv) as (qs & Hrun).
  exists qs. exact (Hrun 15%nat 1%nat [[5]; [7]] Hf).
Defined.

(** ** Input errors *)

(** C6, as stated, fails when both conditions are violated at once:
    [diophantine] tests the range first, so with [p >= q] and [v <= 0] it
    raises InvalidRange and not InvalidDivisor. *)
Lemma invalid_range_masks_invalid_divisor :
  0 <= 0 /\ 5 <= 5 /\
  forall fuel,
    fst (diophantine fuel 1 0 1 5 5 false []) = Raise InvalidRange /\
    fst (diophantine fuel 1 0 1 5 5 false []) <> Raise InvalidDivisor.
Proof.
  split; [lia |]. split; [lia |]. intros fuel.
  rewrite diophantine_invalid_range by lia. split; [reflexivity | discriminate].
Qed.

(** C6, amended: [diophantine] raises InvalidRange whenever [p >= q],
    whatever [v] is; [gcd] and [lincomb] raise InvalidDivisor whenever
    [v <= 0], and [diophantine] does so whenever [v <= 0] and [p < q].
    No list object is changed by a call that fails on its range or, for
    [gcd], on its divisor. *)
Theorem invalid_arguments_raise (fuel : nat) (d v w p q : Z) (c : bool)
    (l : loc) (h : heap) :
  (q <= p -> diophantine fuel d v w p q c h = (Raise InvalidRange, h)) /\
  (v <= 0 ->
   gcd (S fuel) d v l h = (Raise InvalidDivisor, h) /\
   fst (lincomb (S fuel) d v h) = Raise InvalidDivisor /\
   (p < q -> fst (diophantine (S fuel) d v w p q c h) = Raise InvalidDivisor)).
Proof.
  split.
  - apply diophantine_invalid_range.
  - intros Hv. repeat split.
    + now apply gcd_raise.
    + now apply lincomb_raise.
    + intros Hpq. now apply diophantine_invalid_divisor.
Qed.

Lemma invalid_arguments_raise_witness :
  (5 <= 5 -> diophantine 3 23 31 4 5 5 false [] = (Raise InvalidRange, [])) /\
  (0 <= 0 ->
   gcd 4 23 0 0%nat [[]] = (Raise InvalidDivisor, [[]]) /\
   fst (lincomb 4 23 0 []) = Raise InvalidDivisor /\
   (0 < 99 -> fst (diophantine 4 23 0 4 0 99 true []) = Raise InvalidDivisor)).
Proof.
  split.
  - intros _. apply (invalid_arguments_raise 3 23 31 4 5 5 false 0%nat []). lia.
  - intros _.
    destruct (invalid_arguments_raise 3 23 0 4 0 99 true 0%nat [[]]) as [_ H1].
    destruct (invalid_arguments_raise 3 23 0 4 0 99 true 0%nat []) as [_ H2].
    destruct (H1 ltac:(lia)) as (Hg & _ & _).
    destruct (H2 ltac:(lia)) as (_ & Hl & Hd).
    split; [exact Hg | split; [exact Hl | exact Hd]].
Defined.

(** ** Bounded solution enumerator *)

(** C8: for [v > 0] and [p < q], with either flag, if [w] is not a
    multiple of [gcd(d, v)] then [diophantine] returns the empty list. *)
Theorem diophantine_not_multiple (fuel : nat) (d v w p q : Z) (c : bool)
    (h : heap) :
  0 < v ->
  p < q ->
  w mod Z.gcd d v <> 0 ->
  enough_fuel v fuel ->
  fst (diophantine fuel d v w p q c h) = Ret [].
Proof.
  intros Hv Hpq Hw Hf.
  destruct (gcd_total d v Hv) as (qs & He & Hlen & _).
  destruct (lincomb_run _ _ _ _ He) as (a & b & _ & Hlin).
  unfold enough_fuel in Hf.
  assert (Hq : (length qs < fuel)%nat) by lia.
  rewrite (diophantine_run _ _ _ _ a b w p q c fuel h He Hq Hpq (Hlin _ _ Hq)).
  destruct (Z.eqb_spec (w mod Z.gcd d v) 0); [contradiction | reflexivity].
Qed.

Lemma diophantine_not_multiple_witness :
  0 < 18 /\ 0 < 99 /\ 3 mod Z.gcd 24 18 <> 0 /\ enough_fuel 18 9 /\
  fst (diophantine 9 24 18 3 0 99 true []) = Ret [].
Proof.
  assert (H1 : 0 < 18) by lia.
  assert (H2 : 0 < 99) by lia.
  assert (H3 : 3 mod Z.gcd 24 18 <> 0) by discriminate.
  assert (H4 : enough_fuel 18 9) by (unfold enough_fuel; simpl; lia).
  split; [exact H1 |]. split; [exact H2 |].
  split; [exact H3 |]. split; [exact H4 |].
  exact (diophantine_not_multiple 9 24 18 3 0 99 true [] H1 H2 H3 H4).
Defined.

(** C10: in any list [diophantine] returns, consecutive pairs differ by
    [(v, - d)]; the list is [(m * a + n * v, m * b - n * d)] for consecutive
    [n] in increasing order, where [(g, a, b)] is what [lincomb] returns
    and [m = w / g]. *)
Theorem diophantine_consecutive (fuel : nat) (d v w p q : Z) (c : bool)
    (h h' : heap) (sols : list (Z * Z)) :
  diophantine fuel d v w p q c h = (Ret sols, h') ->
  (forall (k : nat) s t s' t',
      sols !! k = Some (s, t) -> sols !! S k = Some (s', t') ->
      s' - s = v /\ t' - t = - d) /\
  exists g a b lower,
    fst (lincomb fuel d v h) = Ret (g, a, b) /\
    sols = map (fun n => (w / g * a + n * v, w / g * b - n * d))
               (seqZ lower (Z.of_nat (length sols))).
Proof.
  intros E. apply diophantine_ret_inv in E.
  destruct E as (qs & g & a & b & He & Hf & Hpq & Hab & Hlin & Hsols).
  destruct Hsols as [[_ ->] | (_ & lower & upper & _ & ->)].
  - split; [intros k s t s' t' Hk; discriminate |].
    exists g, a, b, 0. rewrite Hlin. split; reflexivity.
  - split.
    + intros k s t s' t' Hk Hk'.
      apply solutions_lookup in Hk, Hk'. lia.
    + exists g, a, b, lower. rewrite Hlin. split; [reflexivity |].
      unfold solutions, range. rewrite length_map.
      now rewrite <- seqZ_length_id.
Qed.

Lemma diophantine_consecutive_witness :
  (forall (k : nat) s t s' t',
      [(15, -11); (46, -34); (77, -57)] !! k = Some (s, t) ->
      [(15, -11); (46, -34); (77, -57)] !! S k = Some (s', t') ->
      s' - s = 31 /\ t' - t = - 23) /\
  exists g a b lower,
    fst (lincomb 10 23 31 []) = Ret (g, a, b) /\
    [(15, -11); (46, -34); (77, -57)]
    = map (fun n => (4 / g * a + n * 31, 4 / g * b - n * 23))
          (seqZ lower (Z.of_nat (length [(15, -11); (46, -34); (77, -57)]))).
Proof.
  exact (diophantine_consecutive 10 23 31 4 0 99 false []
           [[0; 1; 2; 1]; [0; 1; 2; 1]] [(15, -11); (46, -34); (77, -57)]
           eq_refl).
Defined.

(** Every pair [diophantine] returns solves the equation, whatever the
    bounds were rounded to. *)
Lemma diophantine_equation (fuel : nat) (d v w p q : Z) (c : bool)
    (h h' : heap) (sols : list (Z * Z)) (k : nat) (s t : Z) :
  diophantine fuel d v w p q c h = (Ret sols, h') ->
  sols !! k = Some (s, t) ->
  s * d + t * v = w.
Proof.
  intros E Hk. apply diophantine_ret_inv in E.
  destruct E as (qs & g & a & b & He & Hf & Hpq & Hab & Hlin & Hsols).
  destruct Hsols as [[_ ->] | (Hw & lower & upper & _ & ->)]; [discriminate |].
  apply solutions_lookup in Hk. destruct Hk as [-> ->].
  pose proof (euclid_pos _ _ _ _ He) as [_ Hg].
  pose proof (Z.div_mod w g ltac:(lia)) as Hdm. rewrite Hw in Hdm.
  nia.
Qed.

(** C2 (every pair returned solves the equation and has the selected
    unknown within [[p, q]]) fails at [d = 1], [v = 1], [w = 0],
    [p = 2^53 + 1], [q = 2^53 + 2] with the bound on [s]:
    [(p - m * a) / v] is the float nearest to [2^53 + 1], which is [2^53],
    so [lower] is [2^53] and the first pair returned solves the equation
    but has [s = 2^53 < p]. *)
Theorem diophantine_bound_violated :
  fst (diophantine 1 1 1 0 (2 ^ 53 + 1) (2 ^ 53 + 2) false [])
  = Ret [(2 ^ 53, - 2 ^ 53);
         (2 ^ 53 + 1, - (2 ^ 53 + 1));
         (2 ^ 53 + 2, - (2 ^ 53 + 2))] /\
  2 ^ 53 * 1 + - 2 ^ 53 * 1 = 0 /\
  ~ (2 ^ 53 + 1 <= 2 ^ 53 <= 2 ^ 53 + 2).
Proof.
  split; [vm_compute; reflexivity |]. split; [reflexivity | lia].
Qed.

(** C3 (every solution of the equation within the bound is returned)
    fails at [d = 2], [v = 2], [w = 0], [p = 0], [q = 3] with the bound on
    [s]: the pairs returned step by [(v, - d) = (2, -2)], but the solutions
    of [2 s + 2 t = 0] step by [(1, -1)]; [(1, -1)] solves the equation
    within the bound and is not returned. *)
Theorem diophantine_misses_solutions :
  fst (diophantine 1 2 2 0 0 3 false []) = Ret [(0, 0); (2, -2)] /\
  1 * 2 + -1 * 2 = 0 /\ 0 <= 1 <= 3 /\
  (1, -1) ∉ [(0, 0); (2, -2)].
Proof.
  split; [reflexivity |]. split; [reflexivity |]. split; [lia |].
  intros Hin. apply list_elem_of_In in Hin. simpl in Hin.
  destruct Hin as [Hin | [Hin | []]]; discriminate.
Qed.

(** C4 (a call with [v > 0] and [p < q] never fails) fails at [d = 0],
    [v = 1], [w = 0], [p = 0], [q = 1] with the bound on [t]: [d > 0] is
    false, so the last branch divides by [d = 0] and the call raises
    ZeroDivisionError. *)
Theorem diophantine_zero_division :
  0 < 1 /\
  fst (diophantine 1 0 1 0 0 1 true []) = Raise ZeroDivisionError.
Proof. split; [lia | reflexivity]. Qed.

(** The same holds for every [v > 0] and every multiple [w] of [v]. *)
Lemma diophantine_zero_d (fuel : nat) (v w p q : Z) (h : heap) :
  0 < v -> p < q -> w mod v = 0 -> enough_fuel v fuel ->
  fst (diophantine fuel 0 v w p q true h) = Raise ZeroDivisionError.
Proof.
  intros Hv Hpq Hw Hf.
  assert (He : euclid 0 v [] v) by (constructor; [lia | apply Z.mod_0_l; lia]).
  destruct (lincomb_run _ _ _ _ He) as (a & b & _ & Hlin).
  assert (Hq : (length (@nil Z) < fuel)%nat).
  { unfold enough_fuel in Hf. pose proof (Z.log2_nonneg v). simpl. lia. }
  rewrite (diophantine_run _ _ _ _ a b w p q true fuel h He Hq Hpq (Hlin _ _ Hq)).
  rewrite Hw. simpl (0 =? 0). cbv iota.
  unfold bounds. simpl negb. cbv iota. simpl (0 <? 0). cbv iota.
  unfold bind at 1. unfold bind at 1. unfold truediv at 1. reflexivity.
Qed.

(** Division overflows where the quotient is too large for a float. *)
Example diophantine_overflow :
  fst (diophantine 1 1 1 0 0 (2 ^ 1024) false []) = Raise OverflowError.
Proof. vm_compute. reflexivity. Qed.

(** * Further properties of the code *)

(** ** The quotients of the reduction *)

(** Once the divisor is below the dividend every quotient is at least 1. *)
Lemma euclid_quotients_pos x y qs g :
  euclid x y qs g -> y < x -> Forall (fun q => 1 <= q) qs.
Proof.
  induction 1 as [x y Hy Hr | x y qs g Hy Hr _ IH]; intros Hlt.
  - constructor.
  - pose proof (Z.mod_pos_bound x y Hy).
    constructor.
    + apply Z.div_le_lower_bound; lia.
    + apply IH. lia.
Qed.

Lemma euclid_divides x y qs g : euclid x y qs g -> (g | x) /\ (g | y).
Proof.
  intros He. rewrite (euclid_gcd _ _ _ _ He).
  split; [apply Z.gcd_divide_l | apply Z.gcd_divide_r].
Qed.

Lemma euclid_inv x y qs g :
  euclid x y qs g ->
  0 < y /\
  ((x mod y = 0 /\ qs = [] /\ g = y) \/
   (x mod y <> 0 /\
    exists qs', qs = x / y :: qs' /\ euclid y (x mod y) qs' g)).
Proof.
  destruct 1 as [x y Hy Hr | x y qs g Hy Hr He].
  - split; [exact Hy |]. left. now repeat split.
  - split; [exact Hy |]. right. split; [exact Hr |]. now exists qs.
Qed.

(** X3: where [gcd] returns, the list it was given has gained the
    quotients: the first is [d // v], the later ones are at least 1, and
    there is none exactly when [v] divides [d]. *)
Theorem gcd_quotients (fuel : nat) (d v g : Z) (l l' : loc)
    (h h' : heap) (xs : list Z) :
  gcd fuel d v l h = (Ret (g, l'), h') ->
  h !! l = Some xs ->
  exists qs,
    h' !! l = Some (xs ++ qs) /\
    (forall q, head qs = Some q -> q = d / v) /\
    Forall (fun q => 1 <= q) (tail qs) /\
    (qs = [] <-> d mod v = 0).
Proof.
  intros E Hl. apply gcd_ret_inv in E.
  destruct E as (qs & He & _ & _ & ->).
  exists qs. split; [now apply extended_lookup |].
  apply euclid_inv in He.
  destruct He as [Hv [(Hr & -> & _) | (Hr & qs' & -> & He')]].
  - split; [discriminate |]. split; [constructor |]. tauto.
  - split; [now intros q [= <-] |]. split.
    + simpl. apply (euclid_quotients_pos _ _ _ _ He').
      pose proof (Z.mod_pos_bound d v Hv). lia.
    + split; [discriminate | contradiction].
Qed.

Lemma gcd_quotients_witness :
  exists qs,
    [[5; 1; 1; 2; 7]] !! 0%nat = Some ([5] ++ qs) /\
    (forall q, head qs = Some q -> q = 237 / 141) /\
    Forall (fun q => 1 <= q) (tail qs) /\
    (qs = [] <-> 237 mod 141 = 0).
Proof.
  exact (gcd_quotients 10 237 141 3 0 0 [[5]] [[5; 1; 1; 2; 7]] [5]
           eq_refl eq_refl).
Defined.

(** ** The size of the coefficients *)

Lemma alternating_step c0 c1 x y total :
  0 < y -> y < x -> alternating c0 c1 x y total ->
  alternating c1 (c0 - x / y * c1) y (x mod y) total.
Proof.
  intros Hy Hlt [Hs Ht]. unfold alternating.
  assert (Hq : 1 <= x / y) by (apply Z.div_le_lower_bound; lia).
  rewrite (Z.mod_eq x y) by lia.
  set (q := x / y) in *.
  assert (Habs : Z.abs (c0 - q * c1) = Z.abs c0 + q * Z.abs c1).
  { destruct (Z.abs_spec c0) as [[? ->] | [? ->]];
      destruct (Z.abs_spec c1) as [[? ->] | [? ->]];
      destruct (Z.abs_spec (c0 - q * c1)) as [[? ->] | [? ->]]; nia. }
  split; [nia |]. rewrite Habs. nia.
Qed.

Lemma alternating_stop c0 c1 x y total :
  0 < y -> y < x -> x mod y = 0 -> alternating c0 c1 x y total ->
  2 * Z.abs c1 * y <= total.
Proof.
  intros Hy Hlt Hr [_ Ht].
  pose proof (Z.div_mod x y ltac:(lia)) as Hdm. rewrite Hr in Hdm.
  assert (2 <= x / y) by nia.
  pose proof (Z.abs_nonneg c0). pose proof (Z.abs_nonneg c1). nia.
Qed.

Lemma lincomb_loop_alternating x y qs g :
  euclid x y qs g ->
  y < x ->
  forall (i : nat) (aa bb : list Z) a0 a1 b0 b1 ta tb,
    length aa = S (S i) -> length bb = S (S i) ->
    aa !! i = Some a0 -> aa !! S i = Some a1 ->
    bb !! i = Some b0 -> bb !! S i = Some b1 ->
    forall h aa' bb' h' a b,
      lincomb_loop (Z.of_nat i) qs aa bb h = (Ret (aa', bb'), h') ->
      last aa' = Some a -> last bb' = Some b ->
      (alternating a0 a1 x y ta -> 2 * Z.abs a * g <= ta) /\
      (alternating b0 b1 x y tb -> 2 * Z.abs b * g <= tb).
Proof.
  induction 1 as [x y Hy Hr | x y qs g Hy Hr _ IH];
    intros Hlt i aa bb a0 a1 b0 b1 ta tb La Lb Ha0 Ha1 Hb0 Hb1
           h aa' bb' h' a b Hrun Hla Hlb.
  - simpl in Hrun. injection Hrun as <- <- <-.
    rewrite last_lookup, La in Hla. rewrite last_lookup, Lb in Hlb.
    simpl in Hla, Hlb. rewrite Ha1 in Hla. rewrite Hb1 in Hlb.
    injection Hla as <-. injection Hlb as <-.
    split; intros Halt; eapply alternating_stop; eauto.
  - simpl lincomb_loop in Hrun.
    replace (Z.of_nat i + 1) with (Z.of_nat (S i)) in Hrun by lia.
    rewrite (bind_run_ret _ _ _ _ _ (getitem_run aa i a0 h Ha0)) in Hrun.
    rewrite (bind_run_ret _ _ _ _ _ (getitem_run aa (S i) a1 h Ha1)) in Hrun.
    rewrite (bind_run_ret _ _ _ _ _ (getitem_run bb i b0 h Hb0)) in Hrun.
    rewrite (bind_run_ret _ _ _ _ _ (getitem_run bb (S i) b1 h Hb1)) in Hrun.
    pose proof (Z.mod_pos_bound x y Hy).
    destruct (IH ltac:(lia) (S i) (aa ++ [a0 - x / y * a1])
                (bb ++ [b0 - x / y * b1])
                a1 (a0 - x / y * a1) b1 (b0 - x / y * b1) ta tb)
      with (h := h) (aa' := aa') (bb' := bb') (h' := h') (a := a) (b := b)
      as [Ka Kb]; try assumption.
    + rewrite length_app, La. simpl. lia.
    + rewrite length_app, Lb. simpl. lia.
    + rewrite lookup_app_l by lia. exact Ha1.
    + rewrite <- La. apply list_lookup_middle. reflexivity.
    + rewrite lookup_app_l by lia. exact Hb1.
    + rewrite <- Lb. apply list_lookup_middle. reflexivity.
    + split; intros Halt; [apply Ka | apply Kb]; now apply alternating_step.
Qed.

(** What [lincomb] returns, read back from a call that returned. *)
Lemma lincomb_ret_inv fuel d v h g a b h' :
  lincomb fuel d v h = (Ret (g, a, b), h') ->
  exists qs,
    euclid d v qs g /\ (length qs < fuel)%nat /\ h' = h ++ [qs] /\
    a * d + b * v = g /\
    match qs with
    | [] => a = 0 /\ b = 1
    | q0 :: qs' =>
        exists aa' bb',
          lincomb_loop 0 qs' [0; 1] [1; - q0] h' = (Ret (aa', bb'), h') /\
          last aa' = Some a /\ last bb' = Some b
    end.
Proof.
  intros E.
  assert (Hg : exists g0 l1 h1,
             gcd fuel d v (length h) (h ++ [[]]) = (Ret (g0, l1), h1)).
  { unfold lincomb in E.
    rewrite (bind_run_ret (new_list []) _ h (length h) (h ++ [[]]) eq_refl) in E.
    apply bind_ret_inv in E. destruct E as ([g0 l1] & h1 & E1 & _). eauto. }
  destruct Hg as (g0 & l1 & h1 & Hg).
  apply gcd_ret_inv in Hg. destruct Hg as (qs & He & _ & Hf & _).
  destruct (lincomb_run _ _ _ _ He) as (a' & b' & Hab & Hlin).
  rewrite (Hlin fuel h Hf) in E. injection E as <- <- <- <-.
  exists qs. repeat split; try assumption.
  specialize (Hlin fuel h Hf). unfold lincomb in Hlin.
  rewrite (bind_run_ret (new_list []) _ h (length h) (h ++ [[]]) eq_refl) in Hlin.
  rewrite (bind_run_ret _ _ _ _ _ (gcd_run _ _ _ _ He fuel _ _ Hf)) in Hlin.
  rewrite extended_fresh in Hlin.
  rewrite (bind_run_ret (read (length h)) _ (h ++ [qs]) qs (h ++ [qs])) in Hlin
    by (unfold read; now rewrite list_lookup_middle).
  destruct qs as [| q0 qs'].
  - simpl in Hlin. injection Hlin as <- <-. now split.
  - simpl (length _ =? 0)%nat in Hlin. cbv iota in Hlin.
    rewrite (bind_run_ret _ _ _ _ _
               (getitem_run (q0 :: qs') 0 q0 (h ++ [q0 :: qs']) eq_refl)) in Hlin.
    simpl drop in Hlin.
    inversion He as [| d' v' qs'' g' Hv Hr He']; subst.
    destruct (lincomb_loop_run _ _ _ _ He' 0%nat [0; 1] [1; - (d / v)]
                0 1 1 (- (d / v)) d v)
      as (aa' & bb' & a & b & Hla & Hlb & _ & Hloop);
      try reflexivity; try lia.
    { rewrite (Z.mod_eq d v) by lia. lia. }
    change (Z.of_nat 0) with 0 in Hloop.
    rewrite (bind_run_ret _ _ _ _ _ (Hloop _)) in Hlin.
    rewrite (bind_run_ret _ _ _ _ _ (getitem_last_run aa' a _ Hla)) in Hlin.
    rewrite (bind_run_ret _ _ _ _ _ (getitem_last_run bb' b _ Hlb)) in Hlin.
    injection Hlin as <- <-.
    exists aa', bb'. split; [apply Hloop | now split].
Qed.

(** Whatever [lincomb] returns has [2 |a| g <= v] and
    [|b| g <= max (|d|, g)]. *)
Lemma lincomb_coefficients fuel d v g a b (h h' : heap) :
  lincomb fuel d v h = (Ret (g, a, b), h') ->
  2 * Z.abs a * g <= v /\ Z.abs b * g <= Z.max (Z.abs d) g.
Proof.
  intros E. apply lincomb_ret_inv in E.
  destruct E as (qs & He & _ & _ & _ & Hqs).
  pose proof (euclid_pos _ _ _ _ He) as [Hv Hg].
  apply euclid_inv in He.
  destruct He as [_ [(_ & -> & _) | (Hr & qs' & -> & He')]].
  { destruct Hqs as [-> ->]. simpl. lia. }
  destruct Hqs as (aa' & bb' & Hloop & Hla & Hlb).
  pose proof (Z.mod_pos_bound d v Hv) as Hrb.
  pose proof (Z.div_mod d v ltac:(lia)) as Hdm.
  remember (d mod v) as r eqn:Er. remember (d / v) as q0 eqn:Eq0.
  clear Er Eq0.
  change 0 with (Z.of_nat 0) in Hloop at 1.
  (* the coefficient of d *)
  assert (Ha : 2 * Z.abs a * g <= v).
  { destruct (lincomb_loop_alternating _ _ _ _ He' ltac:(lia) 0%nat
                [0; 1] [1; - q0] 0 1 1 (- q0) v 0
                eq_refl eq_refl eq_refl eq_refl eq_refl eq_refl
                _ _ _ _ a b Hloop Hla Hlb) as [Ka _].
    apply Ka. unfold alternating. lia. }
  split; [exact Ha |].
  destruct (Z.le_gt_cases 0 q0) as [Hq0 | Hq0].
  - (* d > 0: the signs alternate from the start *)
    destruct (lincomb_loop_alternating _ _ _ _ He' ltac:(lia) 0%nat
                [0; 1] [1; - q0] 0 1 1 (- q0) v d
                eq_refl eq_refl eq_refl eq_refl eq_refl eq_refl
                _ _ _ _ a b Hloop Hla Hlb) as [_ Kb].
    assert (2 * Z.abs b * g <= d).
    { apply Kb. unfold alternating. split; [lia |].
      rewrite Z.abs_opp, (Z.abs_eq q0), (Z.abs_eq 1) by lia. lia. }
    pose proof (Z.abs_nonneg b). lia.
  - (* d < 0: the signs alternate after the first iteration *)
    apply euclid_inv in He'.
    destruct He' as [_ [(Hr' & -> & ->) | (Hr' & qs3 & -> & He'')]].
    + simpl in Hloop. injection Hloop as <- <- .
      simpl in Hla, Hlb. injection Hla as <-. injection Hlb as <-.
      pose proof (Z.div_mod v r ltac:(lia)) as Hdm'. rewrite Hr' in Hdm'.
      assert (2 <= v / r) by nia.
      rewrite Z.abs_opp, (Z.abs_neq q0) by lia.
      apply Z.max_le_iff. left. rewrite (Z.abs_neq d) by nia. nia.
    + pose proof (Z.mod_pos_bound v r ltac:(lia)) as Hrb'.
      pose proof (Z.div_mod v r ltac:(lia)) as Hdm'.
      assert (Hq1 : 1 <= v / r) by (apply Z.div_le_lower_bound; lia).
      remember (v mod r) as r2 eqn:Er2. remember (v / r) as q1 eqn:Eq1.
      clear Er2 Eq1.
      simpl lincomb_loop in Hloop.
      rewrite (bind_run_ret _ _ _ _ _
                 (getitem_run [0; 1] 0 0 _ eq_refl)) in Hloop.
      rewrite (bind_run_ret _ _ _ _ _
                 (getitem_run [0; 1] 1 1 _ eq_refl)) in Hloop.
      rewrite (bind_run_ret _ _ _ _ _
                 (getitem_run [1; - q0] 0 1 _ eq_refl)) in Hloop.
      rewrite (bind_run_ret _ _ _ _ _
                 (getitem_run [1; - q0] 1 (- q0) _ eq_refl)) in Hloop.
      change (0 + 1) with (Z.of_nat 1) in Hloop.
      destruct (lincomb_loop_alternating _ _ _ _ He'' ltac:(lia) 1%nat
                  ([0; 1] ++ [0 - q1 * 1]) ([1; - q0] ++ [1 - q1 * - q0])
                  1 (0 - q1 * 1) (- q0) (1 - q1 * - q0) v (- d)
                  eq_refl eq_refl eq_refl eq_refl eq_refl eq_refl
                  _ _ _ _ a b Hloop Hla Hlb) as [_ Kb].
      assert (2 * Z.abs b * g <= - d).
      { apply Kb. unfold alternating. split; [nia |].
        rewrite Z.abs_opp, (Z.abs_neq q0) by lia.
        rewrite (Z.abs_neq (1 - q1 * - q0)) by nia. nia. }
      pose proof (Z.abs_nonneg b). lia.
Qed.

(** X2: for [v > 0] the coefficients [lincomb] returns are small:
    [2 |a| g <= v] and [|b| g <= max (|d|, g)], where [g] is the gcd. *)
Theorem lincomb_coefficients_bounded (fuel : nat) (d v : Z) (h : heap) :
  0 < v -> enough_fuel v fuel ->
  exists a b,
    fst (lincomb fuel d v h) = Ret (Z.gcd d v, a, b) /\
    2 * Z.abs a * Z.gcd d v <= v /\
    Z.abs b * Z.gcd d v <= Z.max (Z.abs d) (Z.gcd d v).
Proof.
  intros Hv Hf.
  destruct (gcd_total d v Hv) as (qs & He & Hlen & _).
  destruct (lincomb_run _ _ _ _ He) as (a & b & _ & Hlin).
  assert (Hq : (length qs < fuel)%nat) by (unfold enough_fuel in Hf; lia).
  exists a, b. rewrite (Hlin fuel h Hq).
  split; [reflexivity |].
  exact (lincomb_coefficients _ _ _ _ _ _ _ _ (Hlin fuel h Hq)).
Qed.

Lemma lincomb_coefficients_bounded_witness :
  0 < 141 /\ enough_fuel 141 15 /\
  exists a b,
    fst (lincomb 15 237 141 []) = Ret (Z.gcd 237 141, a, b) /\
    2 * Z.abs a * Z.gcd 237 141 <= 141 /\
    Z.abs b * Z.gcd 237 141 <= Z.max (Z.abs 237) (Z.gcd 237 141).
Proof.
  assert (Hv : 0 < 141) by lia.
  assert (Hf : enough_fuel 141 15) by (unfold enough_fuel; simpl; lia).
  split; [exact Hv |]. split; [exact Hf |].
  exact (lincomb_coefficients_bounded 15 237 141 [] Hv Hf).
Defined.

(** X4: where [v] divides [d] (also for [d = 0]) there are no quotients:
    [lincomb] returns [(v, 0, 1)] and leaves an empty list behind. *)
Theorem lincomb_exact_division (fuel : nat) (d v : Z) (h : heap) :
  0 < v -> d mod v = 0 ->
  lincomb (S fuel) d v h = (Ret (v, 0, 1), h ++ [[]]).
Proof.
  intros Hv Hr. unfold lincomb.
  assert (He : euclid d v [] v) by now constructor.
  rewrite (bind_run_ret (new_list []) _ h (length h) (h ++ [[]]) eq_refl).
  rewrite (bind_run_ret _ _ _ _ _
             (gcd_run _ _ _ _ He (S fuel) _ _ ltac:(simpl; lia))).
  rewrite extended_fresh.
  rewrite (bind_run_ret (read (length h)) _ (h ++ [[]]) [] (h ++ [[]]))
    by (unfold read; now rewrite list_lookup_middle).
  reflexivity.
Qed.

Lemma lincomb_exact_division_witness :
  0 < 3 /\ 6 mod 3 = 0 /\ lincomb 1 6 3 [] = (Ret (3, 0, 1), [] ++ [[]]).
Proof.
  assert (Hv : 0 < 3) by lia.
  assert (Hr : 6 mod 3 = 0) by reflexivity.
  split; [exact Hv |]. split; [exact Hr |].
  exact (lincomb_exact_division 0 6 3 [] Hv Hr).
Defined.

(** ** Small inputs *)

Lemma abs_div_le w g : 0 < g -> Z.abs (w / g) <= Z.abs w.
Proof.
  intros Hg. pose proof (Z.div_mod w g ltac:(lia)) as Hdm.
  pose proof (Z.mod_pos_bound w g Hg) as Hr.
  destruct (Z.abs_spec w) as [[? ->] | [? ->]];
    destruct (Z.abs_spec (w / g)) as [[? ->] | [? ->]]; nia.
Qed.

Lemma abs_sub_mul_lt K x m c :
  0 < K -> Z.abs x < K -> Z.abs m < K -> Z.abs c < K ->
  Z.abs (x - m * c) < K * K + K /\ Z.abs (m * c - x) < K * K + K.
Proof.
  intros HK Hx Hm Hc.
  assert (Z.abs (m * c) < K * K).
  { rewrite Z.abs_mul. pose proof (Z.abs_nonneg m). pose proof (Z.abs_nonneg c).
    nia. }
  split; lia.
Qed.

(** With inputs below [2^26] the numerators of the divisions of [bounds]
    are below [2^53]. *)
Lemma small_inputs_quotients fuel d v w p q c (h : heap) g a b h' :
  lincomb fuel d v h = (Ret (g, a, b), h') ->
  small_inputs d v w p q c ->
  small_quotients d v p q (w / g) a b c.
Proof.
  intros Hlin (Hd & Hv & Hw & Hp & Hq & Hc).
  pose proof (lincomb_coefficients _ _ _ _ _ _ _ _ Hlin) as [Ha Hb].
  apply lincomb_ret_inv in Hlin. destruct Hlin as (qs & He & _).
  pose proof (euclid_pos _ _ _ _ He) as [Hvpos Hg].
  pose proof (euclid_divides _ _ _ _ He) as [_ [k Hk]].
  assert (Hgv : g <= v) by (apply Z.divide_pos_le; [lia | now exists k]).
  pose proof (abs_div_le w g Hg) as Hm.
  unfold small_quotients.
  assert (E53 : 2 ^ 26 * 2 ^ 26 + 2 ^ 26 < 2 ^ 53) by reflexivity.
  assert (E1022 : 2 ^ 26 < 2 ^ 1022) by reflexivity.
  assert (K0 : 0 < 2 ^ 26) by reflexivity.
  remember (2 ^ 26) as K eqn:EK. remember (2 ^ 53) as B53.
  remember (2 ^ 1022) as B1022. clear EK HeqB53 HeqB1022.
  assert (Haa : Z.abs a < K).
  { pose proof (Z.abs_nonneg a). nia. }
  assert (Hbb : Z.abs b < K).
  { pose proof (Z.abs_nonneg b). pose proof (Z.abs_nonneg d).
    assert (Z.max (Z.abs d) g < K * g).
    { destruct (Z.max_spec (Z.abs d) g) as [[_ ->] | [_ ->]]; nia. }
    nia. }
  destruct c.
  - destruct (abs_sub_mul_lt K p (w / g) b K0 Hp ltac:(lia) Hbb) as [_ H1].
    destruct (abs_sub_mul_lt K q (w / g) b K0 Hq ltac:(lia) Hbb) as [_ H2].
    repeat split; [now apply Hc | lia | lia | lia].
  - destruct (abs_sub_mul_lt K p (w / g) a K0 Hp ltac:(lia) Haa) as [H1 _].
    destruct (abs_sub_mul_lt K q (w / g) a K0 Hq ltac:(lia) Haa) as [H2 _].
    repeat split; lia.
Qed.

(** The run of [diophantine] on small inputs, on every heap. *)
Lemma small_inputs_run fuel d v w p q c :
  0 < v -> p < q -> enough_fuel v fuel ->
  small_inputs d v w p q c ->
  exists a b sols,
    a * d + b * v = Z.gcd d v /\
    (forall h : heap, fst (lincomb fuel d v h) = Ret (Z.gcd d v, a, b)) /\
    (forall h : heap, fst (diophantine fuel d v w p q c h) = Ret sols) /\
    forall s t,
      (s, t) ∈ sols <->
      w mod Z.gcd d v = 0 /\
      exists n, s = w / Z.gcd d v * a + n * v /\
                t = w / Z.gcd d v * b - n * d /\
                bounded c p q s t.
Proof.
  intros Hv Hpq Hf Hsmall.
  destruct (gcd_total d v Hv) as (qs & He & Hlen & _).
  destruct (lincomb_run _ _ _ _ He) as (a & b & Hab & Hlin).
  assert (Hq : (length qs < fuel)%nat) by (unfold enough_fuel in Hf; lia).
  exists a, b.
  destruct (Z.eq_dec (w mod Z.gcd d v) 0) as [Hw | Hw].
  - pose proof (small_inputs_quotients _ _ _ _ _ _ _ _ _ _ _ _
                  (Hlin fuel [] Hq) Hsmall) as Hsq.
    destruct (bounds_small d v p q (w / Z.gcd d v) a b c Hv Hsq)
      as (lower & upper & Hrun & Hiff).
    exists (solutions d v (w / Z.gcd d v) a b lower upper).
    split; [exact Hab |].
    split; [intros h; now rewrite (Hlin fuel h Hq) |].
    split.
    + intros h.
      rewrite (diophantine_run _ _ _ _ a b w p q c fuel h He Hq Hpq
                 (Hlin _ _ Hq)).
      rewrite Hw. simpl (0 =? 0). cbv iota.
      now rewrite (bind_run_ret _ _ _ _ _ (Hrun _)).
    + intros s t. rewrite solutions_elem. split.
      * intros (n & Hn & -> & ->). split; [exact Hw |].
        exists n. split; [reflexivity |]. split; [reflexivity |].
        now apply Hiff.
      * intros (_ & n & -> & -> & Hb). exists n.
        split; [now apply Hiff | now split].
  - exists []. split; [exact Hab |].
    split; [intros h; now rewrite (Hlin fuel h Hq) |].
    split.
    + intros h.
      rewrite (diophantine_run _ _ _ _ a b w p q c fuel h He Hq Hpq
                 (Hlin _ _ Hq)).
      destruct (Z.eqb_spec (w mod Z.gcd d v) 0); [contradiction | reflexivity].
    + intros s t. split; [intros Hin; inversion Hin | tauto].
Qed.

Lemma family_solves d v w a b n :
  a * d + b * v = Z.gcd d v -> w mod Z.gcd d v = 0 ->
  (w / Z.gcd d v * a + n * v) * d + (w / Z.gcd d v * b - n * d) * v = w.
Proof.
  intros Hab Hw.
  destruct (Z.eq_dec (Z.gcd d v) 0) as [Hg | Hg].
  - rewrite Hg in *. rewrite Z.mod_0_r in Hw. rewrite Z.div_0_r. lia.
  - pose proof (Z.div_mod w (Z.gcd d v) Hg) as Hdm. rewrite Hw in Hdm.
    remember (Z.gcd d v) as g. remember (w / g) as m. clear Heqg Heqm.
    replace ((m * a + n * v) * d + (m * b - n * d) * v)
      with (m * (a * d + b * v)) by ring.
    rewrite Hab. lia.
Qed.

(** X5: for inputs below [2^26] (with [v > 0], [p < q], and [d] not zero
    where the bound is on [t]) [diophantine] returns, and the list holds
    exactly the members of the family [(m a + n v, m b - n d)] within the
    bound, where [(g, a, b)] is what [lincomb] returns and [m = w / g];
    it is empty when [w] is not a multiple of [g]. *)
Theorem diophantine_small_inputs_family (fuel : nat) (d v w p q : Z) (c : bool)
    (h : heap) :
  0 < v -> p < q -> enough_fuel v fuel ->
  small_inputs d v w p q c ->
  exists a b sols,
    fst (lincomb fuel d v h) = Ret (Z.gcd d v, a, b) /\
    fst (diophantine fuel d v w p q c h) = Ret sols /\
    forall s t,
      (s, t) ∈ sols <->
      w mod Z.gcd d v = 0 /\
      exists n, s = w / Z.gcd d v * a + n * v /\
                t = w / Z.gcd d v * b - n * d /\
                bounded c p q s t.
Proof.
  intros Hv Hpq Hf Hsmall.
  destruct (small_inputs_run fuel d v w p q c Hv Hpq Hf Hsmall)
    as (a & b & sols & _ & Hlin & Hrun & Hiff).
  exists a, b, sols.
  split; [apply Hlin |]. split; [apply Hrun | exact Hiff].
Qed.

Lemma diophantine_small_inputs_family_witness :
  0 < 31 /\ 0 < 99 /\ enough_fuel 31 10 /\ small_inputs 23 31 4 0 99 false /\
  exists a b sols,
    fst (lincomb 10 23 31 []) = Ret (Z.gcd 23 31, a, b) /\
    fst (diophantine 10 23 31 4 0 99 false []) = Ret sols /\
    forall s t,
      (s, t) ∈ sols <->
      4 mod Z.gcd 23 31 = 0 /\
      exists n, s = 4 / Z.gcd 23 31 * a + n * 31 /\
                t = 4 / Z.gcd 23 31 * b - n * 23 /\
                bounded false 0 99 s t.
Proof.
  assert (Hv : 0 < 31) by lia.
  assert (Hpq : 0 < 99) by lia.
  assert (Hf : enough_fuel 31 10) by (unfold enough_fuel; simpl; lia).
  assert (Hs : small_inputs 23 31 4 0 99 false).
  { unfold small_inputs. repeat (split; [reflexivity |]). discriminate. }
  split; [exact Hv |]. split; [exact Hpq |]. split; [exact Hf |].
  split; [exact Hs |].
  exact (diophantine_small_inputs_family 10 23 31 4 0 99 false [] Hv Hpq Hf Hs).
Defined.

(** X6: for inputs below [2^26] (with [v > 0], [p < q], and [d] not zero
    where the bound is on [t]) [diophantine] returns, and every pair of the
    list solves the equation and has the selected unknown within
    [[p, q]]. *)
Theorem diophantine_small_inputs_sound (fuel : nat) (d v w p q : Z)
    (c : bool) (h : heap) :
  0 < v -> p < q -> enough_fuel v fuel ->
  small_inputs d v w p q c ->
  exists sols,
    fst (diophantine fuel d v w p q c h) = Ret sols /\
    forall s t, (s, t) ∈ sols -> s * d + t * v = w /\ bounded c p q s t.
Proof.
  intros Hv Hpq Hf Hsmall.
  destruct (small_inputs_run fuel d v w p q c Hv Hpq Hf Hsmall)
    as (a & b & sols & Hab & _ & Hrun & Hiff).
  exists sols. split; [apply Hrun |].
  intros s t Hin. apply Hiff in Hin.
  destruct Hin as (Hw & n & -> & -> & Hb).
  split; [now apply family_solves | exact Hb].
Qed.

Lemma diophantine_small_inputs_sound_witness :
  0 < 31 /\ 0 < 99 /\ enough_fuel 31 10 /\ small_inputs 23 31 4 0 99 false /\
  exists sols,
    fst (diophantine 10 23 31 4 0 99 false []) = Ret sols /\
    forall s t,
      (s, t) ∈ sols -> s * 23 + t * 31 = 4 /\ bounded false 0 99 s t.
Proof.
  assert (Hv : 0 < 31) by lia.
  assert (Hpq : 0 < 99) by lia.
  assert (Hf : enough_fuel 31 10) by (unfold enough_fuel; simpl; lia).
  assert (Hs : small_inputs 23 31 4 0 99 false).
  { unfold small_inputs. repeat (split; [reflexivity |]). discriminate. }
  split; [exact Hv |]. split; [exact Hpq |]. split; [exact Hf |].
  split; [exact Hs |].
  exact (diophantine_small_inputs_sound 10 23 31 4 0 99 false [] Hv Hpq Hf
           Hs).
Defined.

(** X7: for inputs below [2^26] with coprime [d] and [v] (and [v > 0],
    [p < q], [d] not zero where the bound is on [t]) the list holds
    exactly the solutions of the equation that have the selected unknown
    within [[p, q]]. *)
Theorem diophantine_small_inputs_coprime (fuel : nat) (d v w p q : Z)
    (c : bool) (h : heap) :
  0 < v -> p < q -> enough_fuel v fuel ->
  small_inputs d v w p q c ->
  Z.gcd d v = 1 ->
  exists sols,
    fst (diophantine fuel d v w p q c h) = Ret sols /\
    forall s t, (s, t) ∈ sols <-> s * d + t * v = w /\ bounded c p q s t.
Proof.
  intros Hv Hpq Hf Hsmall Hg.
  destruct (small_inputs_run fuel d v w p q c Hv Hpq Hf Hsmall)
    as (a & b & sols & Hab & _ & Hrun & Hiff).
  exists sols. split; [apply Hrun |].
  intros s t. rewrite Hiff. rewrite Hg in *. rewrite Z.div_1_r. split.
  - intros (Hw & n & -> & -> & Hb). split; [| exact Hb].
    replace ((w * a + n * v) * d + (w * b - n * d) * v)
      with (w * (a * d + b * v)) by ring.
    rewrite Hab. ring.
  - intros [Heq Hb]. split; [apply Z.mod_1_r |].
    exists (s * b - t * a).
    destruct (coprime_family d v w a b s t Hab Heq) as [Hs Ht].
    split; [exact Hs |]. split; [exact Ht | exact Hb].
Qed.

Lemma diophantine_small_inputs_coprime_witness :
  0 < 31 /\ 0 < 99 /\ enough_fuel 31 10 /\ small_inputs 23 31 4 0 99 false /\
  Z.gcd 23 31 = 1 /\
  exists sols,
    fst (diophantine 10 23 31 4 0 99 false []) = Ret sols /\
    forall s t,
      (s, t) ∈ sols <-> s * 23 + t * 31 = 4 /\ bounded false 0 99 s t.
Proof.
  assert (Hv : 0 < 31) by lia.
  assert (Hpq : 0 < 99) by lia.
  assert (Hf : enough_fuel 31 10) by (unfold enough_fuel; simpl; lia).
  assert (Hg : Z.gcd 23 31 = 1) by reflexivity.
  assert (Hs : small_inputs 23 31 4 0 99 false).
  { unfold small_inputs. repeat (split; [reflexivity |]). discriminate. }
  split; [exact Hv |]. split; [exact Hpq |]. split; [exact Hf |].
  split; [exact Hs |]. split; [exact Hg |].
  exact (diophantine_small_inputs_coprime 10 23 31 4 0 99 false [] Hv Hpq Hf
           Hs Hg).
Defined.

(** ** The list that [diophantine] returns *)

(** X1: every pair of a list that [diophantine] returns solves the
    equation [s d + t v = w], whatever the size of the arguments. *)
Theorem diophantine_solves_equation (fuel : nat) (d v w p q : Z) (c : bool)
    (h : heap) (sols : list (Z * Z)) (s t : Z) :
  fst (diophantine fuel d v w p q c h) = Ret sols ->
  (s, t) ∈ sols ->
  s * d + t * v = w.
Proof.
  intros E Hin.
  destruct (diophantine fuel d v w p q c h) as [o h'] eqn:E'.
  simpl in E. subst o.
  apply list_elem_of_lookup in Hin. destruct Hin as [k Hk].
  exact (diophantine_equation fuel d v w p q c h h' sols k s t E' Hk).
Qed.

Lemma diophantine_solves_equation_witness :
  fst (diophantine 10 23 31 4 0 99 false [])
  = Ret [(15, -11); (46, -34); (77, -57)] /\
  (46, -34) ∈ [(15, -11); (46, -34); (77, -57)] /\
  46 * 23 + -34 * 31 = 4.
Proof.
  assert (E : fst (diophantine 10 23 31 4 0 99 false [])
              = Ret [(15, -11); (46, -34); (77, -57)]) by reflexivity.
  assert (Hin : (46, -34) ∈ [(15, -11); (46, -34); (77, -57)]).
  { apply list_elem_of_lookup. exists 1%nat. reflexivity. }
  split; [exact E |]. split; [exact Hin |].
  exact (diophantine_solves_equation 10 23 31 4 0 99 false [] _ 46 (-34)
           E Hin).
Defined.

(** X8: a list that [diophantine] returns is in strictly increasing order
    of [s]: the entries at [i] and [j] differ by [(j - i) * (v, - d)], so
    no pair occurs twice. *)
Theorem diophantine_increasing (fuel : nat) (d v w p q : Z) (c : bool)
    (h h' : heap) (sols : list (Z * Z)) (i j : nat) (s t s' t' : Z) :
  diophantine fuel d v w p q c h = (Ret sols, h') ->
  sols !! i = Some (s, t) -> sols !! j = Some (s', t') ->
  s' - s = (Z.of_nat j - Z.of_nat i) * v /\
  t' - t = - ((Z.of_nat j - Z.of_nat i) * d) /\
  ((i < j)%nat -> s < s').
Proof.
  intros E Hi Hj. apply diophantine_ret_inv in E.
  destruct E as (qs & g & a & b & He & _ & _ & _ & _ & Hsols).
  pose proof (euclid_pos _ _ _ _ He) as [Hv _].
  destruct Hsols as [[_ ->] | (_ & lower & upper & _ & ->)]; [discriminate |].
  apply solutions_lookup in Hi, Hj.
  destruct Hi as [-> ->]. destruct Hj as [-> ->].
  split; [lia |]. split; [lia |]. intros Hlt. nia.
Qed.

Lemma diophantine_increasing_witness :
  77 - 15 = (Z.of_nat 2 - Z.of_nat 0) * 31 /\
  -57 - -11 = - ((Z.of_nat 2 - Z.of_nat 0) * 23) /\
  ((0 < 2)%nat -> 15 < 77).
Proof.
  exact (diophantine_increasing 10 23 31 4 0 99 false []
           [[0; 1; 2; 1]; [0; 1; 2; 1]] [(15, -11); (46, -34); (77, -57)]
           0 2 15 (-11) 77 (-57) eq_refl eq_refl eq_refl).
Defined.

(** X9: with [d = 0] and the bound on [t] (and [v > 0], [p < q]) the call
    raises ZeroDivisionError when [w] is a multiple of [v] and returns the
    empty list otherwise. *)
Theorem diophantine_zero_d_flag (fuel : nat) (v w p q : Z) (h : heap) :
  0 < v -> p < q -> enough_fuel v fuel ->
  fst (diophantine fuel 0 v w p q true h)
  = if w mod v =? 0 then Raise ZeroDivisionError else Ret [].
Proof.
  intros Hv Hpq Hf.
  assert (He : euclid 0 v [] v) by (constructor; [lia | apply Z.mod_0_l; lia]).
  destruct (lincomb_run _ _ _ _ He) as (a & b & _ & Hlin).
  assert (Hq : (length (@nil Z) < fuel)%nat).
  { unfold enough_fuel in Hf. pose proof (Z.log2_nonneg v). simpl. lia. }
  rewrite (diophantine_run _ _ _ _ a b w p q true fuel h He Hq Hpq (Hlin _ _ Hq)).
  destruct (w mod v =? 0); [| reflexivity].
  unfold bounds. simpl negb. cbv iota. simpl (0 <? 0). cbv iota.
  unfold bind at 1. unfold bind at 1. unfold truediv at 1. reflexivity.
Qed.

Lemma diophantine_zero_d_flag_witness :
  0 < 21 /\ 0 < 99 /\ enough_fuel 21 10 /\
  fst (diophantine 10 0 21 42 0 99 true [])
  = if 42 mod 21 =? 0 then Raise ZeroDivisionError else Ret [].
Proof.
  assert (Hv : 0 < 21) by lia.
  assert (Hpq : 0 < 99) by lia.
  assert (Hf : enough_fuel 21 10) by (unfold enough_fuel; simpl; lia).
  split; [exact Hv |]. split; [exact Hpq |]. split; [exact Hf |].
  exact (diophantine_zero_d_flag 10 21 42 0 99 [] Hv Hpq Hf).
Defined.

(** ** What the functions leave alone *)

Lemma gcd_frame fuel d v :
  exists (r : outcome Z) (qs : list Z),
    forall (l : loc) (h : heap),
      gcd fuel d v l h
      = (match r with
         | Ret g => Ret (g, l)
         | Raise e => Raise e
         | OutOfFuel => OutOfFuel
         end, extended l qs h).
Proof.
  revert d v. induction fuel as [| fuel IH]; intros d v.
  - exists OutOfFuel, []. intros l h. now rewrite extended_nil.
  - destruct (Z.leb_spec v 0) as [Hv | Hv].
    + exists (Raise InvalidDivisor), []. intros l h.
      rewrite extended_nil. now apply gcd_raise.
    + destruct (Z.eqb_spec (d mod v) 0) as [Hr | Hr].
      * exists (Ret v), []. intros l h.
        rewrite gcd_unfold by assumption.
        destruct (Z.eqb_spec (d mod v) 0); [| contradiction].
        now rewrite extended_nil.
      * destruct (IH v (d mod v)) as (r & qs & Hg).
        exists r, (d / v :: qs). intros l h.
        rewrite gcd_unfold by assumption.
        destruct (Z.eqb_spec (d mod v) 0); [contradiction |].
        now rewrite Hg, extended_cons.
Qed.

Lemma getitem_frame xs i : exists r, forall h, getitem xs i h = (r, h).
Proof.
  unfold getitem. cbv zeta.
  destruct (_ <? 0); [now eexists |].
  destruct (xs !! _); now eexists.
Qed.

Lemma lincomb_loop_frame qs :
  forall i aa bb, exists r, forall h, lincomb_loop i qs aa bb h = (r, h).
Proof.
  induction qs as [| q qs IH]; intros i aa bb; simpl.
  - now eexists.
  - apply bind_frame; [apply getitem_frame | intros a0].
    apply bind_frame; [apply getitem_frame | intros a1].
    apply bind_frame; [apply getitem_frame | intros b0].
    apply bind_frame; [apply getitem_frame | intros b1].
    apply IH.
Qed.

(** The outcome of [lincomb] and the list it allocates are the same on
    every heap. *)
Lemma lincomb_frame fuel d v :
  exists r qs, forall h : heap, lincomb fuel d v h = (r, h ++ [qs]).
Proof.
  destruct (gcd_frame fuel d v) as (r & qs & Hg).
  destruct r as [g | e |].
  - assert (Hk : exists r, forall h1 : heap,
               (if (length qs =? 0)%nat then ret (g, 0, 1)
                else
                  let* q0 := getitem qs 0 in
                  let* (aa, bb) := lincomb_loop 0 (drop 1 qs) [0; 1] [1; - q0] in
                  let* a := getitem aa (-1) in
                  let* b := getitem bb (-1) in
                  ret (g, a, b)) h1 = (r, h1)).
    { destruct (length qs =? 0)%nat; [now eexists |].
      apply bind_frame; [apply getitem_frame | intros q0].
      apply bind_frame; [apply lincomb_loop_frame | intros [aa bb]].
      apply bind_frame; [apply getitem_frame | intros a].
      apply bind_frame; [apply getitem_frame | intros b].
      now eexists. }
    destruct Hk as [r Hk]. exists r, qs. intros h. unfold lincomb.
    rewrite (bind_run_ret (new_list []) _ h (length h) (h ++ [[]]) eq_refl).
    rewrite (bind_run_ret _ _ _ _ _ (Hg _ _)).
    rewrite extended_fresh.
    rewrite (bind_run_ret (read (length h)) _ (h ++ [qs]) qs (h ++ [qs]))
      by (unfold read; now rewrite list_lookup_middle).
    apply Hk.
  - exists (Raise e), qs. intros h. unfold lincomb.
    rewrite (bind_run_ret (new_list []) _ h (length h) (h ++ [[]]) eq_refl).
    rewrite (bind_run_raise _ _ _ _ _ (Hg _ _)).
    now rewrite extended_fresh.
  - exists OutOfFuel, qs. intros h. unfold lincomb.
    rewrite (bind_run_ret (new_list []) _ h (length h) (h ++ [[]]) eq_refl).
    rewrite (bind_run_out_of_fuel _ _ _ _ (Hg _ _)).
    now rewrite extended_fresh.
Qed.

Lemma bind_ext {A B} (m : M A) (k k' : A -> M B) h :
  (forall a h1, k a h1 = k' a h1) -> bind m k h = bind m k' h.
Proof.
  intros Hk. unfold bind. destruct (m h) as [[a | e |] h1]; [apply Hk | |];
    reflexivity.
Qed.

(** The same for [diophantine], which adds at most two lists of
    quotients. *)
Lemma diophantine_frame fuel d v w p q c :
  exists r new,
    (length new <= 2)%nat /\
    forall h : heap, diophantine fuel d v w p q c h = (r, h ++ new).
Proof.
  destruct (Z.leb_spec q p) as [Hpq | Hpq].
  { exists (Raise InvalidRange), []. split; [simpl; lia |].
    intros h. rewrite app_nil_r. now apply diophantine_invalid_range. }
  destruct (gcd_frame fuel d v) as (r & qs & Hg).
  assert (Hstart : forall h : heap,
             diophantine fuel d v w p q c h
             = (let* x := gcd fuel d v (length h) in
                let* (m, r) := divmod w (fst x) in
                if negb (r =? 0) then ret []
                else
                  let* (_, a, b) := lincomb fuel d v in
                  let* (lower, upper) := bounds d v p q m a b c in
                  ret (fold_left
                         (fun sols n => sols ++ [(m * a + n * v, m * b - n * d)])
                         (range lower (upper + 1)) [])) (h ++ [[]])).
  { intros h. unfold diophantine.
    destruct (Z.leb_spec q p); [lia |].
    rewrite (bind_run_ret (new_list []) _ h (length h) (h ++ [[]]) eq_refl).
    apply bind_ext. intros [g l] h1. reflexivity. }
  destruct r as [g | e |].
  - destruct (Z.eqb_spec g 0) as [Hg0 | Hg0].
    { exists (Raise ZeroDivisionError), [qs]. split; [simpl; lia |].
      intros h. rewrite Hstart.
      rewrite (bind_run_ret _ _ _ _ _ (Hg _ _)). rewrite extended_fresh.
      simpl fst. unfold divmod. rewrite Hg0. reflexivity. }
    destruct (Z.eqb_spec (w mod g) 0) as [Hw | Hw].
    + destruct (lincomb_frame fuel d v) as (r2 & qs2 & Hl).
      destruct r2 as [[[g2 a] b] | e |].
      * destruct (bounds_frame d v p q (w / g) a b c) as [r3 Hb].
        exists (match r3 with
                | Ret (lower, upper) =>
                    Ret (fold_left
                           (fun sols n =>
                              sols ++ [(w / g * a + n * v, w / g * b - n * d)])
                           (range lower (upper + 1)) [])
                | Raise e => Raise e
                | OutOfFuel => OutOfFuel
                end), [qs; qs2].
        split; [simpl; lia |]. intros h. rewrite Hstart.
        rewrite (bind_run_ret _ _ _ _ _ (Hg _ _)). rewrite extended_fresh.
        simpl fst.
        rewrite (bind_run_ret _ _ _ _ _ (divmod_run w g _ Hg0)).
        rewrite Hw. simpl (0 =? 0). cbn [negb].
        rewrite (bind_run_ret _ _ _ _ _ (Hl _)).
        unfold bind. rewrite Hb. rewrite <- app_assoc.
        destruct r3 as [[lower upper] | e |]; reflexivity.
      * exists (Raise e), [qs; qs2].
        split; [simpl; lia |]. intros h. rewrite Hstart.
        rewrite (bind_run_ret _ _ _ _ _ (Hg _ _)). rewrite extended_fresh.
        simpl fst.
        rewrite (bind_run_ret _ _ _ _ _ (divmod_run w g _ Hg0)).
        rewrite Hw. simpl (0 =? 0). cbn [negb].
        rewrite (bind_run_raise _ _ _ _ _ (Hl _)).
        now rewrite <- app_assoc.
      * exists OutOfFuel, [qs; qs2].
        split; [simpl; lia |]. intros h. rewrite Hstart.
        rewrite (bind_run_ret _ _ _ _ _ (Hg _ _)). rewrite extended_fresh.
        simpl fst.
        rewrite (bind_run_ret _ _ _ _ _ (divmod_run w g _ Hg0)).
        rewrite Hw. simpl (0 =? 0). cbn [negb].
        rewrite (bind_run_out_of_fuel _ _ _ _ (Hl _)).
        now rewrite <- app_assoc.
    + exists (Ret []), [qs]. split; [simpl; lia |].
      intros h. rewrite Hstart.
      rewrite (bind_run_ret _ _ _ _ _ (Hg _ _)). rewrite extended_fresh.
      simpl fst.
      rewrite (bind_run_ret _ _ _ _ _ (divmod_run w g _ Hg0)).
      destruct (Z.eqb_spec (w mod g) 0); [contradiction | reflexivity].
  - exists (Raise e), [qs]. split; [simpl; lia |].
    intros h. rewrite Hstart.
    rewrite (bind_run_raise _ _ _ _ _ (Hg _ _)). now rewrite extended_fresh.
  - exists OutOfFuel, [qs]. split; [simpl; lia |].
    intros h. rewrite Hstart.
    rewrite (bind_run_out_of_fuel _ _ _ _ (Hg _ _)). now rewrite extended_fresh.
Qed.

(** X10: [lincomb] behaves the same on every heap: its outcome does not
    depend on the lists that exist and it changes none of them; the heap
    gains one list, the fresh list of quotients that [lincomb] passes to
    [gcd], whether the call returns or raises. *)
Theorem lincomb_heap (fuel : nat) (d v : Z) (h h' : heap) :
  fst (lincomb fuel d v h) = fst (lincomb fuel d v h') /\
  exists qs,
    snd (lincomb fuel d v h) = h ++ [qs] /\
    snd (lincomb fuel d v h') = h' ++ [qs].
Proof.
  destruct (lincomb_frame fuel d v) as (r & qs & Hl).
  rewrite !Hl. split; [reflexivity |]. exists qs. now split.
Qed.

(** X11: [diophantine] behaves the same on every heap: its outcome does
    not depend on the lists that exist and it changes none of them; the
    heap gains at most two lists, the fresh lists of quotients of its own
    call of [gcd] and of its call of [lincomb], whether the call returns
    or raises. *)
Theorem diophantine_heap (fuel : nat) (d v w p q : Z) (c : bool)
    (h h' : heap) :
  fst (diophantine fuel d v w p q c h) = fst (diophantine fuel d v w p q c h') /\
  exists new,
    snd (diophantine fuel d v w p q c h) = h ++ new /\
    snd (diophantine fuel d v w p q c h') = h' ++ new /\
    (length new <= 2)%nat.
Proof.
  destruct (diophantine_frame fuel d v w p q c) as (r & new & Hlen & Hd).
  rewrite !Hd. split; [reflexivity |]. exists new.
  split; [reflexivity |]. split; [reflexivity | exact Hlen].
Qed.

(** ** The exceptions that can come out *)

Lemma truediv_outcome a b (h : heap) :
  (fst (truediv a b h) = Raise ZeroDivisionError /\ b = 0) \/
  fst (truediv a b h) = Raise OverflowError \/
  exists x, fst (truediv a b h) = Ret x.
Proof.
  unfold truediv.
  destruct (Z.eqb_spec b 0); [now left |].
  destruct (a =? 0); [right; right; now eexists |].
  cbv zeta. destruct (_ && _); [right; now left | right; right; now eexists].
Qed.

Lemma truediv_pair_outcome x y z (h : heap) :
  let m := (let* fx := truediv x z in
            let* fy := truediv y z in
            ret (ceil fx, floor fy)) in
  (fst (m h) = Raise ZeroDivisionError /\ z = 0) \/
  fst (m h) = Raise OverflowError \/
  exists r, fst (m h) = Ret r.
Proof.
  cbv zeta.
  destruct (truediv_frame x z) as [rx Hx].
  destruct (truediv_frame y z) as [ry Hy].
  pose proof (truediv_outcome x z h) as Ox.
  pose proof (truediv_outcome y z h) as Oy.
  rewrite Hx in Ox. rewrite Hy in Oy. simpl in Ox, Oy.
  match goal with |- context [fst ?t] => remember (fst t) as o eqn:Eo end.
  unfold bind at 1 in Eo. rewrite Hx in Eo.
  destruct Ox as [[-> Hz] | [-> | [fx ->]]];
    [left; now split | right; now left |].
  unfold bind at 1 in Eo. rewrite Hy in Eo.
  destruct Oy as [[-> Hz] | [-> | [fy ->]]];
    [left; now split | right; now left |].
  right. right. exists (ceil fx, floor fy). exact Eo.
Qed.

Lemma bounds_outcome d v p q m a b c (h : heap) :
  0 < v ->
  (fst (bounds d v p q m a b c h) = Raise ZeroDivisionError /\
   d = 0 /\ c = true) \/
  fst (bounds d v p q m a b c h) = Raise OverflowError \/
  exists r, fst (bounds d v p q m a b c h) = Ret r.
Proof.
  intros Hv. unfold bounds.
  destruct c; simpl negb; cbv iota.
  - destruct (0 <? d).
    + destruct (truediv_pair_outcome (m * b - q) (m * b - p) d h)
        as [[H Hz] | [H | H]]; auto.
    + destruct (truediv_pair_outcome (m * b - p) (m * b - q) d h)
        as [[H Hz] | [H | H]]; auto.
  - destruct (truediv_pair_outcome (p - m * a) (q - m * a) v h)
      as [[H Hz] | [H | H]]; auto. lia.
Qed.

(** X12: [lincomb] never raises IndexError (nor any error but that of
    [gcd]): it returns, or raises InvalidDivisor, which it does only for
    [v <= 0], or the recursion of [gcd] is deeper than the fuel. *)
Theorem lincomb_outcomes (fuel : nat) (d v : Z) (h : heap) :
  (exists g a b, fst (lincomb fuel d v h) = Ret (g, a, b)) \/
  (fst (lincomb fuel d v h) = Raise InvalidDivisor /\ v <= 0) \/
  fst (lincomb fuel d v h) = OutOfFuel.
Proof.
  destruct fuel as [| fuel]; [right; right; reflexivity |].
  destruct (Z.leb_spec v 0) as [Hv | Hv].
  { right. left. split; [now apply lincomb_raise | exact Hv]. }
  destruct (euclid_exists d v Hv) as (qs & g & He & _).
  destruct (Nat.lt_ge_cases (length qs) (S fuel)) as [Hq | Hq].
  - destruct (lincomb_run _ _ _ _ He) as (a & b & _ & Hlin).
    left. exists g, a, b. now rewrite (Hlin (S fuel) h Hq).
  - right. right. unfold lincomb.
    rewrite (bind_run_ret (new_list []) _ h (length h) (h ++ [[]]) eq_refl).
    pose proof (gcd_out_of_fuel _ _ _ _ He (S fuel) (length h) (h ++ [[]]) Hq)
      as Ho.
    destruct (gcd (S fuel) d v (length h) (h ++ [[]])) as [o h1] eqn:E.
    simpl in Ho. subst o.
    now rewrite (bind_run_out_of_fuel _ _ _ _ E).
Qed.

(** X13: [diophantine] never raises IndexError.  It raises
    ZeroDivisionError only for [d = 0] with the bound on [t],
    InvalidRange only for [q <= p] and InvalidDivisor only for [v <= 0];
    otherwise it returns, raises OverflowError, or the recursion of [gcd]
    is deeper than the fuel. *)
Theorem diophantine_outcomes (fuel : nat) (d v w p q : Z) (c : bool)
    (h : heap) :
  (exists sols, fst (diophantine fuel d v w p q c h) = Ret sols) \/
  (fst (diophantine fuel d v w p q c h) = Raise InvalidRange /\ q <= p) \/
  (fst (diophantine fuel d v w p q c h) = Raise InvalidDivisor /\ v <= 0) \/
  (fst (diophantine fuel d v w p q c h) = Raise ZeroDivisionError /\
   d = 0 /\ c = true) \/
  fst (diophantine fuel d v w p q c h) = Raise OverflowError \/
  fst (diophantine fuel d v w p q c h) = OutOfFuel.
Proof.
  destruct (Z.leb_spec q p) as [Hpq | Hpq].
  { right. left. split; [now rewrite diophantine_invalid_range | exact Hpq]. }
  destruct fuel as [| fuel].
  { do 5 right. unfold diophantine. destruct (Z.leb_spec q p); [lia |].
    reflexivity. }
  destruct (Z.leb_spec v 0) as [Hv | Hv].
  { right. right. left.
    split; [now apply diophantine_invalid_divisor | exact Hv]. }
  destruct (euclid_exists d v Hv) as (qs & g & He & _).
  destruct (Nat.lt_ge_cases (length qs) (S fuel)) as [Hq | Hq].
  - destruct (lincomb_run _ _ _ _ He) as (a & b & _ & Hlin).
    rewrite (diophantine_run _ _ _ _ a b w p q c (S fuel) h He Hq Hpq
               (Hlin _ _ Hq)).
    destruct (w mod g =? 0); [| left; eexists; reflexivity].
    destruct (bounds_frame d v p q (w / g) a b c) as [r Hr].
    pose proof (bounds_outcome d v p q (w / g) a b c
                  ((h ++ [qs]) ++ [qs]) Hv) as Ho.
    rewrite Hr in Ho. simpl in Ho.
    match goal with |- context [fst ?t] => remember (fst t) as o eqn:Eo end.
    unfold bind at 1 in Eo. rewrite Hr in Eo.
    destruct Ho as [[-> Hz] | [-> | [[lower upper] ->]]].
    + do 3 right. left. now split.
    + do 4 right. now left.
    + left. eexists. exact Eo.
  - do 5 right. unfold diophantine. destruct (Z.leb_spec q p); [lia |].
    rewrite (bind_run_ret (new_list []) _ h (length h) (h ++ [[]]) eq_refl).
    pose proof (gcd_out_of_fuel _ _ _ _ He (S fuel) (length h) (h ++ [[]]) Hq)
      as Ho.
    destruct (gcd (S fuel) d v (length h) (h ++ [[]])) as [o h1] eqn:E.
    simpl in Ho. subst o.
    now rewrite (bind_run_out_of_fuel _ _ _ _ E).
Qed.

(** ** The self-test *)

Lemma io_bind_done {A B} (m : IO A) (k : A -> IO B) out h a out' h' :
  m out h = (Done a, out', h') -> io_bind m k out h = k a out' h'.
Proof. intros E. unfold io_bind. now rewrite E. Qed.

Lemma io_bind_failed {A B} (m : IO A) (k : A -> IO B) out h f out' h' :
  m out h = (Failed f, out', h') -> io_bind m k out h = (Failed f, out', h').
Proof. intros E. unfold io_bind. now rewrite E. Qed.

Lemma io_bind_print {B} line (k : unit -> IO B) out h :
  io_bind (print line) k out h = k tt (out ++ [line]) h.
Proof. reflexivity. Qed.

Lemma io_bind_assert_true {B} cond msg (k : unit -> IO B) out h :
  cond = true -> io_bind (assert cond msg) k out h = k tt out h.
Proof. intros ->. reflexivity. Qed.

Lemma io_bind_assert_false {B} cond msg (k : unit -> IO B) out h :
  cond = false ->
  io_bind (assert cond msg) k out h = (Failed (AssertionError msg), out, h).
Proof. intros ->. reflexivity. Qed.

Lemma call_ret {A} (m : M A) out h a h' :
  m h = (Ret a, h') -> call m out h = (Done a, out, h').
Proof. intros E. unfold call. now rewrite E. Qed.

(** One round of the first loop, where [lincomb] returns: a line is
    printed and the assertion holds. *)
Lemma gcd_tests_step fuel d v pairs out h g a b h' :
  lincomb fuel d v h = (Ret (g, a, b), h') ->
  exists line,
    gcd_tests fuel ((d, v) :: pairs) out h
    = gcd_tests fuel pairs (out ++ [line]) h'.
Proof.
  intros E.
  pose proof (lincomb_ret_inv _ _ _ _ _ _ _ _ E) as (qs & _ & _ & _ & Hab & _).
  eexists. cbn [gcd_tests].
  rewrite (io_bind_done _ _ _ _ _ _ _ (call_ret _ _ _ _ _ E)).
  cbv beta iota. unfold print_gcd. rewrite io_bind_print.
  rewrite io_bind_assert_true by (apply Z.eqb_eq; symmetry; exact Hab).
  reflexivity.
Qed.



(** X15: on any list of pairs the assertion of the first loop never
    fails: the loop runs to its end, or a call of [lincomb] raises, or the
    fuel runs out. *)
Theorem gcd_tests_outcomes (fuel : nat) (pairs : list (Z * Z))
    (out : list string) (h : heap) :
  status (gcd_tests fuel pairs out h) = Done tt \/
  (exists e, status (gcd_tests fuel pairs out h) = Failed (Uncaught e)) \/
  status (gcd_tests fuel pairs out h) = Diverged.
Proof.
  revert out h. induction pairs as [| [d v] pairs IH]; intros out h.
  - left. reflexivity.
  - destruct (lincomb fuel d v h) as [[[[g a] b] | e |] h'] eqn:E.
    + destruct (gcd_tests_step fuel d v pairs out h _ _ _ _ E) as [line ->].
      apply IH.
    + right. left. exists e. cbn [gcd_tests].
      unfold io_bind at 1. unfold call. rewrite E. reflexivity.
    + right. right. cbn [gcd_tests].
      unfold io_bind at 1. unfold call. rewrite E. reflexivity.
Qed.

(** The loop over the solutions, where every pair solves the equation and
    is within the bound. *)
Lemma check_sols_run sols d v w p q c :
  (forall s t, (s, t) ∈ sols -> s * d + t * v = w /\ bounded c p q s t) ->
  forall out (h : heap),
    exists lines,
      check_sols sols d v w p q c out h = (Done tt, out ++ lines, h) /\
      length lines = length sols.
Proof.
  induction sols as [| [s t] sols IH]; intros Hall out h.
  - exists []. rewrite app_nil_r. now split.
  - destruct (Hall s t) as [Heq Hb].
    { apply list_elem_of_In. now left. }
    cbn [check_sols].
    rewrite io_bind_assert_true by (now apply Z.eqb_eq).
    rewrite io_bind_assert_true.
    2:{ destruct c; [apply orb_true_r |]. unfold bounded in Hb.
        rewrite orb_false_r. apply andb_true_iff. split; apply Z.leb_le; lia. }
    rewrite io_bind_assert_true.
    2:{ destruct c; cbn [negb]; [| apply orb_true_r]. unfold bounded in Hb.
        rewrite orb_false_r. apply andb_true_iff. split; apply Z.leb_le; lia. }
    unfold print_sol. cbv beta iota zeta. rewrite io_bind_print.
    match goal with
    | |- context [check_sols sols d v w p q c (out ++ [?line]) h] =>
        destruct (IH ltac:(intros s' t' Hin; apply Hall;
                           apply list_elem_of_In; right;
                           now apply list_elem_of_In)
                    (out ++ [line]) h) as (lines & -> & Hlen);
        exists (line :: lines)
    end.
    split; [now rewrite <- app_assoc | simpl; now rewrite Hlen].
Qed.

(** The loop over the solutions, where every pair solves the equation:
    only the assertions on the bound can fail. *)
Lemma check_sols_cases sols d v w p q c :
  (forall s t, (s, t) ∈ sols -> s * d + t * v = w) ->
  forall out (h : heap),
    exists out',
      check_sols sols d v w p q c out h = (Done tt, out', h) \/
      check_sols sols d v w p q c out h
      = (Failed (AssertionError "d coefficient s out of bounds"), out', h) \/
      check_sols sols d v w p q c out h
      = (Failed (AssertionError "v coefficient t out of bounds"), out', h).
Proof.
  induction sols as [| [s t] sols IH]; intros Hall out h.
  - exists out. left. reflexivity.
  - assert (Heq : s * d + t * v = w).
    { apply Hall. apply list_elem_of_In. now left. }
    cbn [check_sols].
    rewrite io_bind_assert_true by (now apply Z.eqb_eq).
    destruct ((p <=? s) && (s <=? q) || c) eqn:E1.
    2:{ exists out. right. left.
        now rewrite io_bind_assert_false by reflexivity. }
    rewrite io_bind_assert_true by reflexivity.
    destruct ((p <=? t) && (t <=? q) || negb c) eqn:E2.
    2:{ exists out. right. right.
        now rewrite io_bind_assert_false by reflexivity. }
    rewrite io_bind_assert_true by reflexivity.
    unfold print_sol. cbv beta iota zeta. rewrite io_bind_print.
    apply IH. intros s' t' Hin. apply Hall.
    apply list_elem_of_In. right. now apply list_elem_of_In.
Qed.

(** One round of the second loop, where [diophantine] returns, up to the
    loop over the solutions. *)
Lemma solution_tests_step fuel d v w p q c problems out h sols h' :
  diophantine fuel d v w p q c h = (Ret sols, h') ->
  exists lines,
    solution_tests fuel ((d, v, w, p, q, c) :: problems) out h
    = (let! _ := check_sols sols d v w p q c in
       let! _ := print EmptyString in
       solution_tests fuel problems) (out ++ lines) h'.
Proof.
  intros E. cbn [solution_tests].
  rewrite (io_bind_done _ _ _ _ _ _ _ (call_ret _ _ _ _ _ E)).
  destruct (length sols =? 0)%nat.
  - rewrite io_bind_print. eexists [_]. reflexivity.
  - exists []. rewrite app_nil_r. reflexivity.
Qed.

(** X16: on problems with [v > 0], [p < q] and arguments below [2^26]
    ([d] not zero where the bound is on [t]) the second loop of the
    self-test runs to its end: none of its three assertions fails and
    nothing is raised. *)
Theorem solution_tests_pass (fuel : nat) (problems : list problem)
    (out : list string) (h : heap) :
  Forall (small_problem fuel) problems ->
  exists lines h',
    solution_tests fuel problems out h = (Done tt, out ++ lines, h') /\
    (length problems <= length lines)%nat.
Proof.
  intros Hall. revert out h.
  induction Hall as [| [[[[[d v] w] p] q] c] problems Hpr _ IH]; intros out h.
  - exists [], h. rewrite app_nil_r. split; [reflexivity | simpl; lia].
  - destruct Hpr as (Hv & Hpq & Hf & Hsmall).
    destruct (small_inputs_run fuel d v w p q c Hv Hpq Hf Hsmall)
      as (a & b & sols & Hab & _ & Hrun & Hiff).
    specialize (Hrun h).
    destruct (diophantine fuel d v w p q c h) as [o h'] eqn:E.
    simpl in Hrun. subst o.
    destruct (solution_tests_step fuel d v w p q c problems out h sols h' E)
      as [l1 ->].
    destruct (check_sols_run sols d v w p q c) with (out := out ++ l1) (h := h')
      as (l2 & Hcheck & _).
    { intros s t Hin. apply Hiff in Hin.
      destruct Hin as (Hw & n & -> & -> & Hb).
      split; [now apply family_solves | exact Hb]. }
    rewrite (io_bind_done _ _ _ _ _ _ _ Hcheck).
    rewrite io_bind_print.
    destruct (IH (((out ++ l1) ++ l2) ++ [EmptyString]) h')
      as (l3 & h'' & -> & Hlen).
    exists (l1 ++ l2 ++ [EmptyString] ++ l3), h''. split.
    + now rewrite !app_assoc.
    + rewrite !length_app. simpl. lia.
Qed.

Lemma solution_tests_pass_witness :
  Forall (small_problem 20) probs /\
  exists lines h',
    solution_tests 20 probs [] [] = (Done tt, [] ++ lines, h') /\
    (length probs <= length lines)%nat.
Proof.
  assert (Hall : Forall (small_problem 20) probs).
  { unfold probs.
    repeat (constructor;
            [unfold small_problem, small_inputs, enough_fuel; simpl;
             repeat (split; [lia |]); intros ?; (discriminate || lia) |]).
    constructor. }
  split; [exact Hall |].
  exact (solution_tests_pass 20 probs [] [] Hall).
Defined.

(** X17: on any list of problems the assertion [s*d + t*v == w] of the
    second loop never fails: the loop runs to its end, or one of the two
    assertions on the bound fails, or a call of [diophantine] raises, or
    the fuel runs out. *)
Theorem solution_tests_outcomes (fuel : nat) (problems : list problem)
    (out : list string) (h : heap) :
  status (solution_tests fuel problems out h) = Done tt \/
  status (solution_tests fuel problems out h)
  = Failed (AssertionError "d coefficient s out of bounds") \/
  status (solution_tests fuel problems out h)
  = Failed (AssertionError "v coefficient t out of bounds") \/
  (exists e,
      status (solution_tests fuel problems out h) = Failed (Uncaught e)) \/
  status (solution_tests fuel problems out h) = Diverged.
Proof.
  revert out h.
  induction problems as [| [[[[[d v] w] p] q] c] problems IH]; intros out h.
  - left. reflexivity.
  - destruct (diophantine fuel d v w p q c h) as [[sols | e |] h'] eqn:E.
    + destruct (solution_tests_step fuel d v w p q c problems out h sols h' E)
        as [l1 ->].
      destruct (check_sols_cases sols d v w p q c) with (out := out ++ l1) (h := h')
        as (out' & [Hc | [Hc | Hc]]).
      { intros s t Hin. apply list_elem_of_lookup in Hin.
        destruct Hin as [k Hk].
        exact (diophantine_equation fuel d v w p q c h h' sols k s t E Hk). }
      * rewrite (io_bind_done _ _ _ _ _ _ _ Hc). rewrite io_bind_print.
        apply IH.
      * right. left. now rewrite (io_bind_failed _ _ _ _ _ _ _ Hc).
      * right. right. left. now rewrite (io_bind_failed _ _ _ _ _ _ _ Hc).
    + do 3 right. left. exists e. cbn [solution_tests].
      unfold io_bind at 1. unfold call. rewrite E. reflexivity.
    + do 4 right. cbn [solution_tests].
      unfold io_bind at 1. unfold call. rewrite E. reflexivity.
Qed.

(** The assertion on the bound does fail where the division is rounded,
    from [2^53] on. *)
Example solution_tests_bound_assertion :
  status (solution_tests 1 [(1, 1, 0, 2 ^ 53 + 1, 2 ^ 53 + 2, false)] [] [])
  = Failed (AssertionError "d coefficient s out of bounds").
Proof. vm_compute. reflexivity. Qed.

(** The run of the script: what it prints. *)
Example main_output :
  fst (main 20 [] [])
  = (Done tt,
     ["GCD Tests";
      "gcd(237,141) = 3 = -22*237 + 37*141";
      "gcd(6,3) = 3 = 0*6 + 1*3";
      "gcd(5,2) = 1 = 1*5 + -2*2";
      "gcd(3,7) = 1 = -2*3 + 1*7";
      "gcd(199,98) = 1 = 33*199 + -67*98";
      "gcd(98,199) = 1 = -67*98 + 33*199";
      "gcd(-129,273) = 3 = -36*-129 + -17*273";
      "gcd(-273,129) = 3 = 17*-273 + 36*129";
      "gcd(0,21) = 21 = 0*0 + 1*21";
      EmptyString;
      "Solution Tests";
      "(s,t)=(31,63) solves 31*-199 + 63*98 = 5 with 0 <= 63 <= 99";
      EmptyString;
      "(s,t)=(31,63) solves 31*-199 + 63*98 = 5 with 0 <= 31 <= 99";
      EmptyString;
      "(s,t)=(-109,81) solves -109*23 + 81*31 = 4 with 0 <= 81 <= 99";
      "(s,t)=(-78,58) solves -78*23 + 58*31 = 4 with 0 <= 58 <= 99";
      "(s,t)=(-47,35) solves -47*23 + 35*31 = 4 with 0 <= 35 <= 99";
      "(s,t)=(-16,12) solves -16*23 + 12*31 = 4 with 0 <= 12 <= 99";
      EmptyString;
      "(s,t)=(15,-11) solves 15*23 + -11*31 = 4 with 0 <= 15 <= 99";
      "(s,t)=(46,-34) solves 46*23 + -34*31 = 4 with 0 <= 46 <= 99";
      "(s,t)=(77,-57) solves 77*23 + -57*31 = 4 with 0 <= 77 <= 99";
      EmptyString;
      "No solution for s*23 + t*31 = 4 with 0 <= t <= 3";
      EmptyString;
      "No solution for s*24 + t*18 = 3 with 0 <= t <= 99";
      EmptyString]).
Proof. vm_compute. reflexivity. Qed.
